(** * config-gen: a shallow embedding of the schema-driven accessor generator

    This development models [config-gen.cc] (the schema visitor, the class
    emitter and the [make_config] factory it emits) and the runtime helpers
    of [config-generic.h] that the generated code relies on ([Range],
    [StringViewAdaptor], [EnumValueMap], [NamedTypeAdaptor::visit],
    [make_optional]).

    Conventions of the model.
    - A UCL object pointer is an [option node]; [None] is [nullptr].
    - A [double] is modelled by its exact value as a rational [Q]; the
      conversions the code performs are written out: integer to double
      rounds to nearest (ties to even, 53-bit significand), double to
      integer truncates toward zero.
    - Undefined behaviour of C++ (a double converted to an integer type that
      cannot hold the truncated value, a [std::string_view] built from a
      null pointer) makes a computation return [None]. *)

From Stdlib Require Import String Ascii List ZArith QArith Bool Lia.
Import ListNotations.

Set Warnings "-register-all".
Open Scope string_scope.
Open Scope Z_scope.

(** ** UCL objects *)

Inductive node : Type :=
| NObj (kvs : list (string * node))
| NArr (elems : list node)
| NStr (s : string)
| NInt (z : Z)
| NFloat (d : Q)
| NBool (b : bool)
| NNull.

(** [ucl_object_lookup]: a null object or a non-object yields [nullptr]. *)
Fixpoint assoc_find (key : string) (kvs : list (string * node)) : option node :=
  match kvs with
  | [] => None
  | (k, v) :: t => if String.eqb k key then Some v else assoc_find key t
  end.

Definition ucl_object_lookup (o : option node) (key : string) : option node :=
  match o with
  | Some (NObj kvs) => assoc_find key kvs
  | _ => None
  end.

(** [ucl_object_tostring]: the string of a [UCL_STRING], [NULL] otherwise. *)
Definition ucl_object_tostring (o : option node) : option string :=
  match o with
  | Some (NStr s) => Some s
  | _ => None
  end.

(** [StringViewAdaptor::operator std::string_view]: a null C string becomes
    the empty view. *)
Definition StringViewAdaptor (o : option node) : string :=
  match ucl_object_tostring o with
  | Some s => s
  | None => ""
  end.

(** ** Numbers *)

Definition INT64_MIN : Z := - 2 ^ 63.
Definition INT64_MAX : Z := 2 ^ 63 - 1.
Definition UINT64_MAX : Z := 2 ^ 64 - 1.

(** Integer to [double] conversion, rounding to nearest with ties to even. *)
Definition Z_to_double (z : Z) : Z :=
  let a := Z.abs z in
  if a <=? 2 ^ 53 then z
  else
    let e := Z.log2 a - 52 in
    let q := a / 2 ^ e in
    let r := a mod 2 ^ e in
    let h := 2 ^ (e - 1) in
    let q' := if h <? r then q + 1
              else if r =? h then (if Z.odd q then q + 1 else q)
              else q in
    Z.sgn z * (q' * 2 ^ e).

(** Truncation toward zero of a [double]. *)
Definition Qtrunc (d : Q) : Z := Z.quot (Qnum d) (Zpos (Qden d)).

(** [static_cast<int64_t>(d)]: undefined when the truncated value does not fit. *)
Definition to_int64 (d : Q) : option Z :=
  let t := Qtrunc d in
  if (INT64_MIN <=? t) && (t <=? INT64_MAX) then Some t else None.

(** [(uint64_t)d]: undefined when the truncated value does not fit. *)
Definition to_uint64 (d : Q) : option Z :=
  let t := Qtrunc d in
  if (0 <=? t) && (t <=? UINT64_MAX) then Some t else None.

(** [ucl_object_todouble]: integers are converted, floats returned, anything
    else is [0.]. *)
Definition ucl_object_todouble (o : option node) : Q :=
  match o with
  | Some (NInt z) => inject_Z (Z_to_double z)
  | Some (NFloat d) => d
  | _ => 0
  end.

(** [make_optional<DoubleAdaptor>(o)] *)
Definition optional_double (o : option node) : option Q :=
  match o with
  | None => None
  | Some _ => Some (ucl_object_todouble o)
  end.

(** Whole numbers, and the rationals that are IEEE-754 binary64 values. *)
Definition is_whole (d : Q) : bool := Z.rem (Qnum d) (Zpos (Qden d)) =? 0.

Definition is_double (d : Q) : bool :=
  if is_whole d then Z_to_double (Qtrunc d) =? Qtrunc d
  else
    let r := Qred d in
    let den := Zpos (Qden r) in
    let k := Z.log2 den in
    (den =? 2 ^ k) && (Z.abs (Qnum r) <? 2 ^ 53) && (k <=? 1074).

(** ** Schema model ([Schema::Number] and friends)

    A schema node is the UCL object a [SchemaBase] wraps. *)

Definition minimum (s : option node) : option Q :=
  optional_double (ucl_object_lookup s "minimum").
Definition exclusiveMinimum (s : option node) : option Q :=
  optional_double (ucl_object_lookup s "exclusiveMinimum").
Definition maximum (s : option node) : option Q :=
  optional_double (ucl_object_lookup s "maximum").
Definition exclusiveMaximum (s : option node) : option Q :=
  optional_double (ucl_object_lookup s "exclusiveMaximum").
Definition multipleOf (s : option node) : option Q :=
  optional_double (ucl_object_lookup s "multipleOf").

(** [Array::items] *)
Definition items (s : option node) : option node := ucl_object_lookup s "items".

(** [SchemaBase::description] *)
Definition description (s : option node) : option string :=
  match ucl_object_lookup s "description" with
  | None => None
  | Some n => Some (StringViewAdaptor (Some n))
  end.

(** Option monad for undefined behaviour. *)
Notation "x <- c1 ;; c2" := (match c1 with Some x => c2 | None => None end)
  (at level 61, c1 at next level, right associativity).
Notation "' p <- c1 ;; c2" := (match c1 with Some p => c2 | None => None end)
  (at level 61, p pattern, c1 at next level, right associativity).

(** ** The schema visitor *)

(** The default of the [--detail-namespace] option. *)
Definition configNamespace : string := "::config::detail::".

Record SchemaVisitor : Type := mkSchemaVisitor {
  className : string;
  return_type : string;
  adaptor : string;
  adaptorNamespace : string;
  lifetimeAttribute : string;
  name : string
}.

(** [SchemaVisitor(n, t)] *)
Definition new_visitor (n : string) : SchemaVisitor :=
  mkSchemaVisitor "" "" "" configNamespace "" n.

Definition set_result (rt ad : string) (v : SchemaVisitor) : SchemaVisitor :=
  mkSchemaVisitor (className v) rt ad (adaptorNamespace v)
    (lifetimeAttribute v) (name v).

(** The candidate types of [try_type]. *)
Inductive IntTy : Type :=
| Int64 | UInt64 | Int32 | UInt32 | Int16 | UInt16 | Int8 | UInt8.

Definition ty_min (t : IntTy) : Z :=
  match t with
  | Int64 => INT64_MIN | Int32 => - 2 ^ 31 | Int16 => - 2 ^ 15 | Int8 => - 2 ^ 7
  | _ => 0
  end.

Definition ty_max (t : IntTy) : Z :=
  match t with
  | Int64 => INT64_MAX | UInt64 => UINT64_MAX
  | Int32 => 2 ^ 31 - 1 | UInt32 => 2 ^ 32 - 1
  | Int16 => 2 ^ 15 - 1 | UInt16 => 2 ^ 16 - 1
  | Int8 => 2 ^ 7 - 1 | UInt8 => 2 ^ 8 - 1
  end.

Definition ty_name (t : IntTy) : string :=
  match t with
  | Int64 => "int64_t" | UInt64 => "uint64_t" | Int32 => "int32_t"
  | UInt32 => "uint32_t" | Int16 => "int16_t" | UInt16 => "uint16_t"
  | Int8 => "int8_t" | UInt8 => "uint8_t"
  end.

Definition ty_adaptor (t : IntTy) : string :=
  match t with
  | Int64 => "Int64Adaptor" | UInt64 => "UInt64Adaptor"
  | Int32 => "Int32Adaptor" | UInt32 => "UInt32Adaptor"
  | Int16 => "Int16Adaptor" | UInt16 => "UInt16Adaptor"
  | Int8 => "Int8Adaptor" | UInt8 => "UInt8Adaptor"
  end.

(** Usual arithmetic conversions when an [int64_t] is compared with a limit
    of type [t]: against [uint64_t] the [int64_t] operand is converted to
    [uint64_t] (wrapping modulo 2^64); every other candidate is promoted to
    [int64_t] and the comparison is signed. *)
Definition as_common (t : IntTy) (x : Z) : Z :=
  match t with
  | UInt64 => x mod 2 ^ 64
  | _ => x
  end.

(** The [try_type] lambda. *)
Definition try_type (min max : Z) (v : SchemaVisitor) (t : IntTy) : SchemaVisitor :=
  if (ty_min t <=? as_common t min) && (as_common t max <=? ty_max t)
  then set_result (ty_name t) (ty_adaptor t) v
  else v.

Definition probe_order : list IntTy :=
  [Int64; UInt64; Int32; UInt32; Int16; UInt16; Int8; UInt8].

(** [value_or] of an [std::optional<double>] with an [int64_t] default: the
    default is converted to [double]. *)
Definition value_or (o : option Q) (dflt : Z) : Q :=
  match o with
  | Some d => d
  | None => inject_Z (Z_to_double dflt)
  end.

(** First part of [handleNumber]: the integrality test. *)
Definition integral_test (num : option node) (isInteger : bool) : option bool :=
  if isInteger then Some true
  else
    match multipleOf num with
    | None => Some false
    | Some m =>
        u <- to_uint64 m ;;
        Some (Qeq_bool (inject_Z (Z_to_double u)) m)
    end.

(** The bound interval computed by [handleNumber]. *)
Definition number_bounds (num : option node) : option (Z * Z) :=
  let min := INT64_MIN in
  let max := INT64_MAX in
  c1 <- to_int64 (value_or (minimum num) min) ;;
  let min := Z.max min c1 in
  c2 <- to_int64 (value_or (exclusiveMinimum num) min) ;;
  let min := Z.max min c2 in
  c3 <- to_int64 (value_or (maximum num) max) ;;
  let max := Z.min max c3 in
  c4 <- to_int64 (value_or (exclusiveMaximum num) max) ;;
  let max := Z.min max c4 in
  Some (min, max).

(** [SchemaVisitor::handleNumber] *)
Definition handleNumber (v : SchemaVisitor) (num : option node) (isInteger : bool)
  : option SchemaVisitor :=
  b <- integral_test num isInteger ;;
  if negb b then Some (set_result "double" "DoubleAdaptor" v)
  else
    '(min, max) <- number_bounds num ;;
    Some (fold_left (try_type min max) probe_order v).

(** ** Runtime ranges ([config::detail::Range]) *)

(** The children [ucl_object_iterate_safe] visits with [UCL_ITERATE_BOTH],
    each with its [ucl_object_key]: the values of an object, the elements of
    an array (which carry no key), and a lone scalar itself (the one member
    of its implicit array, keyed as it is in its parent). *)
Definition ucl_iter_keyed (own_key : option string) (o : option node)
  : list (option string * node) :=
  match o with
  | None => []
  | Some (NObj kvs) => map (fun '(k, v) => (Some k, v)) kvs
  | Some (NArr l) => map (fun v => (None, v)) l
  | Some x => [(own_key, x)]
  end.

Definition ucl_iter_elems (o : option node) : list node :=
  map snd (ucl_iter_keyed None o).

Definition is_ucl_array (o : option node) : bool :=
  match o with
  | Some (NArr _) => true
  | _ => false
  end.

(** [Range::Iter]: [iter] is the UCL iteration cursor (the children not yet
    returned, [None] for a null iterator) and [obj] the current object. *)
Record Iter : Type := mkIter {
  iter : option (list node);
  obj : option node
}.

(** [Iter::operator++] *)
Definition Iter_incr (i : Iter) : Iter :=
  match iter i with
  | None => mkIter None None
  | Some [] => mkIter (Some []) None
  | Some (x :: t) => mkIter (Some t) (Some x)
  end.

(** [Iter::Iter(arr, type)] *)
Definition Iter_new (IterateProperties : bool) (arr : option node) : Iter :=
  if negb IterateProperties && negb (is_ucl_array arr) then mkIter None arr
  else Iter_incr (mkIter (Some (ucl_iter_elems arr)) None).

(** [Range<T, Adaptor, IterateProperties>] over [array], iterated with
    [UCL_ITERATE_BOTH]. *)
Record Range : Type := mkRange { array : option node }.

(** [Range::begin] and [Range::end] *)
Definition Range_begin (IterateProperties : bool) (r : Range) : Iter :=
  Iter_new IterateProperties (array r).
Definition Range_end : Iter := mkIter None None.

(** A range-based [for] loop: [for (it = begin; it != end; ++it) *it]. *)
Fixpoint for_loop (fuel : nat) (it : Iter) : list node :=
  match fuel with
  | O => []
  | S f =>
      match obj it with
      | None => []
      | Some x => x :: for_loop f (Iter_incr it)
      end
  end.

Definition Range_elements (IterateProperties : bool) (r : Range) : list node :=
  for_loop (S (length (ucl_iter_elems (array r)))) (Range_begin IterateProperties r).

(** ** [make_optional] *)

(** [make_optional<Adaptor, T>(o)]: empty for [nullptr], otherwise the
    adaptor's conversion of [o]. *)
Definition make_optional {T : Type} (Adaptor : node -> T) (o : option node)
  : option T :=
  match o with
  | None => None
  | Some n => Some (Adaptor n)
  end.

(** ** Schema objects *)

(** [Object::properties()]: a property range over [obj["properties"]], each
    element with its key. *)
Definition properties (s : option node) : list (option string * option node) :=
  map (fun '(k, v) => (k, Some v))
    (ucl_iter_keyed (Some "properties") (ucl_object_lookup s "properties")).

(** [Object::required()] *)
Definition required (s : option node) : option (list string) :=
  make_optional
    (fun n => map (fun x => StringViewAdaptor (Some x))
                  (Range_elements false (mkRange (Some n))))
    (ucl_object_lookup s "required").

(** The set [required_properties] filled by [emit_class]. *)
Definition required_properties (s : option node) : list string :=
  match required s with
  | Some l => l
  | None => []
  end.

(** ** Discriminator dispatch *)

(** The schema kinds of [SchemaBase::TypeAdaptor]. *)
Inductive SchemaKind : Type :=
| KObject | KArray | KString | KInteger | KBoolean | KNumber.

(** [NamedTypeAdaptor<"type", NamedType<"object", Object>, ...>] *)
Definition TypeAdaptor : list (string * SchemaKind) :=
  [("object", KObject); ("array", KArray); ("string", KString);
   ("integer", KInteger); ("boolean", KBoolean); ("number", KNumber)].

(** [NamedTypeAdaptor::visit_impl]: the handler selected for [key]; [None]
    when the recursion runs off the end without invoking the visitor. *)
Fixpoint visit_impl {A : Type} (tys : list (string * A)) (key : string) : option A :=
  match tys with
  | [] => None
  | (k, a) :: t => if String.eqb key k then Some a else visit_impl t key
  end.

(** The key [NamedTypeAdaptor::visit] dispatches on:
    [StringViewAdaptor(obj["type"])]. *)
Definition type_key (s : option node) : string :=
  StringViewAdaptor (ucl_object_lookup s "type").

(** [SchemaBase::Type] and its [EnumValueMap]. *)
Definition TypeObject : Z := 0.
Definition TypeString : Z := 1.
Definition TypeArray : Z := 2.
Definition TypeNumber : Z := 3.
Definition TypeInteger : Z := 4.
Definition TypeBool : Z := 5.

Definition TypeEnumMap : list (string * Z) :=
  [("object", TypeObject); ("array", TypeArray); ("string", TypeString);
   ("integer", TypeInteger); ("boolean", TypeBool); ("number", TypeNumber)].

(** [static_cast<Type>(x)]: [Type] is an unscoped enumeration with no fixed
    underlying type whose enumerators are 0 to 5, so its values are those of a
    3-bit unsigned bit-field, 0 to 7; a cast from outside them is undefined. *)
Definition static_cast_Type (x : Z) : option Z :=
  if (0 <=? x) && (x <=? 7) then Some x else None.

(** [EnumValueMap::lookup<0>]: [static_cast<Value>(-1)] when no key matches. *)
Fixpoint EnumValueMap_lookup (kvps : list (string * Z)) (key : string) : option Z :=
  match kvps with
  | [] => static_cast_Type (-1)
  | (k, v) :: t => if String.eqb key k then Some v else EnumValueMap_lookup t key
  end.

(** [SchemaBase::type()]: [EnumAdaptor] passes the [const char *] returned by
    [ucl_object_tostring] to [EnumValueMap::get(std::string_view)]; building
    the view from a null pointer is undefined. *)
Definition schema_type (s : option node) : option Z :=
  k <- ucl_object_tostring (ucl_object_lookup s "type") ;;
  EnumValueMap_lookup TypeEnumMap k.

(** ** The class emitter *)

Definition dq : string := String (ascii_of_nat 34) EmptyString.
Definition nl : string := String (ascii_of_nat 10) EmptyString.

Fixpoint has_char (c : ascii) (s : string) : bool :=
  match s with
  | EmptyString => false
  | String c' t => Ascii.eqb c c' || has_char c t
  end.

(** [std::replace(begin, end, c, d)] *)
Fixpoint replace_char (c d : ascii) (s : string) : string :=
  match s with
  | EmptyString => EmptyString
  | String c' t => String (if Ascii.eqb c c' then d else c') (replace_char c d t)
  end.

(** The accessor name [emit_class] derives from a property name. *)
Definition method_name_of (prop_name : string) : string :=
  if has_char "-" prop_name then replace_char "-" "_" prop_name else prop_name.

(** The text of one accessor. *)
Definition method_text (isRequired : bool) (method_name prop_name : string)
  (v : SchemaVisitor) : string :=
  if isRequired then
    return_type v ++ " " ++ method_name ++ "() const " ++ lifetimeAttribute v
    ++ " {" ++ "return " ++ adaptorNamespace v ++ adaptor v
    ++ "(obj[" ++ dq ++ prop_name ++ dq ++ "]);}"
  else
    "std::optional<" ++ return_type v ++ "> " ++ method_name ++ "() const "
    ++ lifetimeAttribute v ++ " {" ++ "return " ++ configNamespace
    ++ "::make_optional<" ++ adaptorNamespace v ++ adaptor v ++ ", "
    ++ return_type v ++ ">(obj[" ++ dq ++ prop_name ++ dq ++ "]);}".

(** The doc comment written before an accessor. *)
Definition description_text (p : option node) : string :=
  match description p with
  | Some d => nl ++ "/** " ++ d ++ " */" ++ nl
  | None => ""
  end.

(** A visitor run: schema, visitor, [types] stream in; visitor and [types]
    stream out. *)
Definition VisitFn : Type :=
  option node -> SchemaVisitor -> string -> option (SchemaVisitor * string).

(** One iteration of the property loop of [emit_class], threading the [types]
    and [methods] streams. [prop.key()] builds a [std::string_view] from
    [ucl_object_key], undefined for a key-less element. *)
Definition emit_property (visit : VisitFn) (req : list string)
  (acc : string * string) (prop : option string * option node)
  : option (string * string) :=
  let '(types, methods) := acc in
  let '(key, p) := prop in
  prop_name <- key ;;
  let method_name := method_name_of prop_name in
  let isRequired := existsb (String.eqb prop_name) req in
  let methods := methods ++ description_text p in
  '(v, types) <- visit p (new_visitor method_name) types ;;
  Some (types, methods ++ method_text isRequired method_name prop_name v ++ nl ++ nl).

Fixpoint fold_properties (visit : VisitFn) (req : list string)
  (props : list (option string * option node)) (acc : string * string)
  : option (string * string) :=
  match props with
  | [] => Some acc
  | prop :: t =>
      acc' <- emit_property visit req acc prop ;;
      fold_properties visit req t acc'
  end.

Definition class_header (name : string) : string :=
  "class " ++ name ++ "{" ++ configNamespace ++ "UCLPtr obj; public:" ++ nl
  ++ name ++ "(const ucl_object_t *o) : obj(o) {}" ++ nl.

(** [emit_class(o, name, out)], given the visitor it runs on properties:
    returns [out] with the class appended. *)
Definition emit_class_gen (visit : VisitFn) (o : option node) (name : string)
  (out : string) : option string :=
  let req := required_properties o in
  '(types, methods) <- fold_properties visit req (properties o) ("", "") ;;
  Some (out ++ class_header name ++ types ++ methods ++ "};" ++ nl).

(** [prop.get().visit(v)] with the [SchemaVisitor] call operators. The fuel
    bounds the nesting depth of Object and Array schemas. *)
Fixpoint visit (fuel : nat) (s : option node) (v : SchemaVisitor) (types : string)
  {struct fuel} : option (SchemaVisitor * string) :=
  match visit_impl TypeAdaptor (type_key s) with
  | Some KObject =>
      match fuel with
      | O => None
      | S f =>
          let cn := name v ++ "Class" in
          types' <- emit_class_gen (visit f) s cn types ;;
          Some (mkSchemaVisitor cn cn cn "" (lifetimeAttribute v) (name v), types')
      end
  | Some KArray =>
      match fuel with
      | O => None
      | S f =>
          '(item, types') <- visit f (items s) (new_visitor (name v ++ "Item")) types ;;
          let cn := configNamespace ++ "::Range<" ++ return_type item ++ ", "
                    ++ adaptor item ++ ", true>" in
          Some (mkSchemaVisitor cn cn cn "" (lifetimeAttribute v) (name v), types')
      end
  | Some KString =>
      Some (mkSchemaVisitor (className v) "std::string_view" "StringViewAdaptor"
              (adaptorNamespace v) "CONFIG_LIFETIME_BOUND" (name v), types)
  | Some KInteger => v' <- handleNumber v s true ;; Some (v', types)
  | Some KBoolean => Some (set_result "bool" "BoolAdaptor" v, types)
  | Some KNumber => v' <- handleNumber v s false ;; Some (v', types)
  | None => Some (v, types)
  end.

Fixpoint node_size (n : node) : nat :=
  match n with
  | NObj kvs =>
      S ((fix go (l : list (string * node)) : nat :=
            match l with
            | [] => O
            | (_, v) :: t => (node_size v + go t)%nat
            end) kvs)
  | NArr l =>
      S ((fix go (l : list node) : nat :=
            match l with
            | [] => O
            | v :: t => (node_size v + go t)%nat
            end) l)
  | _ => 1%nat
  end.

(** [emit_class(o, name, out)] *)
Definition emit_class (o : option node) (name : string) (out : string) : option string :=
  let fuel := match o with Some n => node_size n | None => O end in
  emit_class_gen (visit fuel) o name out.

(** ** The emitted [make_config] factory *)

Section Factory.

(** The collaborators of the emitted factory: libucl's parser applied to the
    embedded schema text, and [ucl_object_validate], which fills in a
    [ucl_schema_error] when the document does not conform. *)
Variable ucl_schema_error : Type.
Variable ucl_parse : string -> option node.
Variable ucl_object_validate : node -> node -> option ucl_schema_error.
Variable embeddedSchema : string.

(** An instance of the primary config class, built by [Config(obj)]. *)
Record Config : Type := mkConfig { config_obj : node }.

(** A call either terminates the process ([std::terminate] when the embedded
    text does not parse) or returns the [std::variant<Config, ucl_schema_error>]. *)
Inductive Outcome : Type :=
| Terminated
| Returned (r : Config + ucl_schema_error).

(** The function-local [static const ucl_object_t *schema] (initialised on
    the first call only), and the number of times its initialiser ran. *)
Record FactoryState : Type := mkFactoryState {
  schema_static : option node;
  parse_runs : nat
}.

Definition factory_init : FactoryState := mkFactoryState None O.

(** [if (!ucl_object_validate(schema, obj, &err)) { return err; }
    return Config(obj);] *)
Definition validate_and_build (schema doc : node) : Outcome :=
  match ucl_object_validate schema doc with
  | Some err => Returned (inr err)
  | None => Returned (inl (mkConfig doc))
  end.

(** [make_config(obj)] *)
Definition make_config (st : FactoryState) (doc : node) : Outcome * FactoryState :=
  match schema_static st with
  | Some schema => (validate_and_build schema doc, st)
  | None =>
      let st' := mkFactoryState (ucl_parse embeddedSchema) (S (parse_runs st)) in
      match ucl_parse embeddedSchema with
      | None => (Terminated, st')
      | Some schema => (validate_and_build schema doc, st')
      end
  end.

(** A sequence of calls in one process; a termination ends it. *)
Fixpoint run_calls (st : FactoryState) (docs : list node)
  : list Outcome * FactoryState :=
  match docs with
  | [] => ([], st)
  | doc :: rest =>
      let '(o, st') := make_config st doc in
      match o with
      | Terminated => ([Terminated], st')
      | _ => let '(os, st'') := run_calls st' rest in (o :: os, st'')
      end
  end.

End Factory.

Arguments Returned {ucl_schema_error} r.
Arguments Terminated {ucl_schema_error}.
Arguments validate_and_build {ucl_schema_error} ucl_object_validate schema doc.
Arguments make_config {ucl_schema_error} ucl_parse ucl_object_validate embeddedSchema st doc.
Arguments run_calls {ucl_schema_error} ucl_parse ucl_object_validate embeddedSchema st docs.

(** ** Number adaptors ([NumberAdaptor<T, Conversion>]) *)

(** [ucl_object_toint]: the value of an integer, a float converted to
    [int64_t] (undefined out of range), and [0] for any other object and for
    [nullptr]. *)
Definition ucl_object_toint (o : option node) : option Z :=
  match o with
  | Some (NInt z) => Some z
  | Some (NFloat d) => to_int64 d
  | _ => Some 0
  end.

Definition ty_width (t : IntTy) : Z :=
  match t with
  | Int64 | UInt64 => 64 | Int32 | UInt32 => 32
  | Int16 | UInt16 => 16 | Int8 | UInt8 => 8
  end.

Definition ty_signed (t : IntTy) : bool :=
  match t with
  | Int64 | Int32 | Int16 | Int8 => true
  | _ => false
  end.

(** [static_cast<T>] of an [int64_t]: the value modulo 2^w, taken in the
    range of [T]. *)
Definition int_cast (t : IntTy) (x : Z) : Z :=
  if ty_signed t
  then (x + 2 ^ (ty_width t - 1)) mod 2 ^ ty_width t - 2 ^ (ty_width t - 1)
  else x mod 2 ^ ty_width t.

(** [operator NumberType()] of [Int64Adaptor], [UInt8Adaptor] and the other
    integer adaptors: [static_cast<NumberType>(ucl_object_toint(obj))]. *)
Definition NumberAdaptor (t : IntTy) (o : option node) : option Z :=
  x <- ucl_object_toint o ;;
  Some (int_cast t x).

(** [DoubleAdaptor], that is [NumberAdaptor<double, ucl_object_todouble>]: the
    conversion already yields a [double], which the cast keeps. *)
Definition DoubleAdaptor (o : option node) : Q := ucl_object_todouble o.

(** [Range::empty] *)
Definition Range_empty (r : Range) : bool :=
  match array r with
  | None => true
  | Some NNull => true
  | Some _ => false
  end.

(** The tag [SchemaBase::type()] should give for each kind. *)
Definition kind_tag (k : SchemaKind) : Z :=
  match k with
  | KObject => TypeObject | KArray => TypeArray | KString => TypeString
  | KInteger => TypeInteger | KBoolean => TypeBool | KNumber => TypeNumber
  end.

(** ** Escaping the schema text in [main] *)

Definition bs : ascii := ascii_of_nat 92.
Definition quote : ascii := ascii_of_nat 34.
Definition newline : ascii := ascii_of_nat 10.
Definition cr : ascii := ascii_of_nat 13.

Fixpoint list_prefix (p s : list ascii) : bool :=
  match p, s with
  | [], _ => true
  | a :: p', b :: s' => Ascii.eqb a b && list_prefix p' s'
  | _ :: _, [] => false
  end.

Fixpoint find_first (search s : list ascii) : option nat :=
  if list_prefix search s then Some O
  else
    match s with
    | [] => None
    | _ :: t => option_map S (find_first search t)
    end.

(** [s.find(search, pos)]; [None] is [npos]. *)
Definition string_find (s search : list ascii) (pos : nat) : option nat :=
  if Nat.leb pos (length s)
  then option_map (Nat.add pos) (find_first search (skipn pos s))
  else None.

(** [s.replace(pos, len, str)] *)
Definition string_replace (s : list ascii) (pos len : nat) (str : list ascii)
  : list ascii :=
  firstn pos s ++ str ++ skipn (pos + len) s.

(** The [replace] lambda of [main]:
    [while ((pos = schema.find(search, pos)) != npos)
       { schema.replace(pos, search.length(), replace); pos += replace.length(); }].
    [fuel] bounds the number of rounds; with a nonempty [search] every round
    leaves fewer characters after [pos]. (With an empty [search] the loop of
    the source never stops; [main] only searches for single characters.) *)
Fixpoint replace_loop (fuel : nat) (search repl schema : list ascii) (pos : nat)
  : list ascii :=
  match fuel with
  | O => schema
  | S f =>
      match string_find schema search pos with
      | None => schema
      | Some p =>
          replace_loop f search repl (string_replace schema p (length search) repl)
            (p + length repl)
      end
  end.

Definition replace (search repl schema : list ascii) : list ascii :=
  replace_loop (S (length schema)) search repl schema O.

(** The three calls of [replace] in [main]: a backslash becomes two
    backslashes, then a quote becomes backslash-quote, then a line feed
    becomes backslash-n. *)
Definition escape_schema (schema : list ascii) : list ascii :=
  let schema := replace [bs] [bs; bs] schema in
  let schema := replace [quote] [bs; quote] schema in
  replace [newline] [bs; "n"%char] schema.

(** The simple escape sequences of a C++ string literal: a backslash
    followed by one of the characters below denotes the paired character
    (apostrophe, quote, question mark, backslash, and the letters a b f n r t v
    for the control characters 7, 8, 12, 10, 13, 9 and 11). *)
Definition simple_escapes : list (ascii * ascii) :=
  [("'"%char, "'"%char); (quote, quote); ("?"%char, "?"%char); (bs, bs);
   ("a"%char, ascii_of_nat 7); ("b"%char, ascii_of_nat 8);
   ("f"%char, ascii_of_nat 12); ("n"%char, newline); ("r"%char, cr);
   ("t"%char, ascii_of_nat 9); ("v"%char, ascii_of_nat 11)].

Fixpoint ascii_assoc (c : ascii) (l : list (ascii * ascii)) : option ascii :=
  match l with
  | [] => None
  | (k, v) :: t => if Ascii.eqb c k then Some v else ascii_assoc c t
  end.

(** The characters denoted by the text between the quotes of a C++ string
    literal. The result is [None] when the text cannot stand there: an unescaped
    quote, a line feed or a carriage return (a line break of the source),
    a final lone backslash, or an escape other than the simple ones (octal,
    hexadecimal and universal-character escapes are not decoded). *)
Fixpoint c_literal_body (l : list ascii) : option (list ascii) :=
  match l with
  | [] => Some []
  | c :: t =>
      if Ascii.eqb c bs then
        match t with
        | [] => None
        | e :: t' =>
            d <- ascii_assoc e simple_escapes ;;
            r <- c_literal_body t' ;;
            Some (d :: r)
        end
      else if Ascii.eqb c quote || Ascii.eqb c newline || Ascii.eqb c cr then None
      else
        r <- c_literal_body t ;;
        Some (c :: r)
  end.

(** The text [main] writes once the schema is parsed: [schema] is the
    compact JSON that [ucl_object_emit] produced for it, [conf] its root. *)
Definition main_output (configClass : string) (embedSchema : bool)
  (schema : list ascii) (conf : option node) : option string :=
  let schema := escape_schema schema in
  let out := "#include " ++ dq ++ "config-generic.h" ++ dq ++ nl ++ nl
    ++ "#include <variant>" ++ nl ++ nl
    ++ "// Machine generated by https://github.com/davidchisnall/config-gen DO NOT EDIT"
    ++ nl ++ "#ifdef CONFIG_NAMESPACE_BEGIN" ++ nl ++ "CONFIG_NAMESPACE_BEGIN" ++ nl
    ++ "#endif" ++ nl in
  out <- emit_class conf configClass out ;;
  let out :=
    if embedSchema then
      out ++ "inline std::variant<" ++ configClass ++ ", ucl_schema_error> "
      ++ "make_config(ucl_object_t *obj) {"
      ++ "static const ucl_object_t *schema = []() {"
      ++ "static const char embeddedSchema[] = " ++ dq ++ string_of_list_ascii schema
      ++ dq ++ ";" ++ nl
      ++ "struct ucl_parser *p = " ++ "ucl_parser_new(UCL_PARSER_NO_IMPLICIT_ARRAYS);" ++ nl
      ++ "ucl_parser_add_string(p, embeddedSchema, " ++ "sizeof(embeddedSchema));" ++ nl
      ++ "if (ucl_parser_get_error(p)) { std::terminate(); }" ++ nl
      ++ "auto obj = ucl_parser_get_object(p);" ++ nl
      ++ "ucl_parser_free(p);" ++ nl
      ++ "return obj;" ++ nl
      ++ "}();"
      ++ "ucl_schema_error err;" ++ nl
      ++ "if (!ucl_object_validate(schema, obj, &err)) { return err; }"
      ++ "return " ++ configClass ++ "(obj);" ++ nl
      ++ "}" ++ nl ++ nl
    else out in
  Some (out ++ "#ifdef CONFIG_NAMESPACE_END" ++ nl ++ "CONFIG_NAMESPACE_END" ++ nl
        ++ "#endif" ++ nl ++ nl).

(** ** [UCLPtr] and libucl reference counts *)









Section UCLObjects.

(** The object graph of libucl: [kids a] lists the objects the object at [a]
    holds one reference to each (the elements of an array, the values of an
    object; with [UCL_PARSER_NO_IMPLICIT_ARRAYS] no object has a [next]
    sibling). [rank a] bounds the depth of the graph below [a]; it only makes
    the recursion below structural. *)
Variable kids : nat -> list nat.
Variable rank : nat -> nat.






End UCLObjects.





(** ** Helper functions for stating properties of generated text *)

Fixpoint count_occ (pat s : string) : nat :=
  match s with
  | EmptyString => O
  | String _ t => ((if String.prefix pat s then 1 else 0) + count_occ pat t)%nat
  end.

Definition is_ident_char (c : ascii) : bool :=
  let n := nat_of_ascii c in
  (Nat.leb 97 n && Nat.leb n 122) || (Nat.leb 65 n && Nat.leb n 90)
  || (Nat.leb 48 n && Nat.leb n 57) || Nat.eqb n 95.

Fixpoint all_ident_chars (s : string) : bool :=
  match s with
  | EmptyString => true
  | String c t => is_ident_char c && all_ident_chars t
  end.

(** A C++ identifier: letters, digits and underscores, not starting with a
    digit. *)
Definition is_identifier (s : string) : bool :=
  match s with
  | EmptyString => false
  | String c _ =>
      negb (Nat.leb 48 (nat_of_ascii c) && Nat.leb (nat_of_ascii c) 57)
      && all_ident_chars s
  end.

(** ** Lemmas *)

Lemma string_app_assoc (a b c : string) : (a ++ b) ++ c = a ++ (b ++ c).
Proof. induction a as [|x a IH]; simpl; [reflexivity | now rewrite IH]. Qed.

Lemma string_app_nil_r (a : string) : a ++ "" = a.
Proof. induction a as [|x a IH]; simpl; [reflexivity | now rewrite IH]. Qed.

Lemma emit_property_methods_grow (vis : VisitFn) (req : list string)
  (t m t' m' : string) (prop : option string * option node) :
  emit_property vis req (t, m) prop = Some (t', m') ->
  exists suf, m' = m ++ suf.
Proof.
  destruct prop as [[k|] p]; simpl; [|discriminate].
  destruct (vis p _ t) as [[v t1]|]; [|discriminate].
  intros H; inversion H; subst.
  eexists. rewrite !string_app_assoc. reflexivity.
Qed.

Lemma fold_properties_methods_grow (vis : VisitFn) (req : list string) props :
  forall t m t' m', fold_properties vis req props (t, m) = Some (t', m') ->
  exists suf, m' = m ++ suf.
Proof.
  induction props as [|prop props IH]; cbn [fold_properties]; intros t m t' m' H.
  - inversion H; subst. exists "". now rewrite string_app_nil_r.
  - destruct (emit_property vis req (t, m) prop) as [[t1 m1]|] eqn:E; [|discriminate].
    destruct (emit_property_methods_grow _ _ _ _ _ _ _ E) as [s1 ->].
    destruct (IH _ _ _ _ H) as [s2 ->].
    exists (s1 ++ s2). now rewrite string_app_assoc.
Qed.

(** If the step for [prop] appends [chunk] to [methods] whatever the streams
    are, [chunk] occurs in the [methods] stream of every successful fold
    over a list containing [prop]. *)
Lemma fold_properties_contains (vis : VisitFn) (req : list string)
  (prop : option string * option node) (chunk : string)
  (Hstep : forall t m, exists t', emit_property vis req (t, m) prop = Some (t', m ++ chunk)) :
  forall props t m t' m', In prop props ->
  fold_properties vis req props (t, m) = Some (t', m') ->
  exists pre post, m' = pre ++ chunk ++ post.
Proof.
  induction props as [|q props IH]; cbn [fold_properties In]; intros t m t' m' Hin H;
    [contradiction|].
  destruct (emit_property vis req (t, m) q) as [[t1 m1]|] eqn:E; [|discriminate H].
  destruct Hin as [<-|Hin].
  - destruct (Hstep t m) as [t2 E2]. rewrite E2 in E. inversion E; subst.
    destruct (fold_properties_methods_grow _ _ _ _ _ _ _ H) as [suf ->].
    exists m, suf. now rewrite string_app_assoc.
  - exact (IH _ _ _ _ Hin H).
Qed.

Lemma emit_class_gen_shape (vis : VisitFn) (o : option node) (nm out res : string) :
  emit_class_gen vis o nm out = Some res ->
  exists T M,
    fold_properties vis (required_properties o) (properties o) ("", "") = Some (T, M)
    /\ res = out ++ class_header nm ++ T ++ M ++ "};" ++ nl.
Proof.
  unfold emit_class_gen.
  destruct (fold_properties _ _ _ _) as [[T M]|]; [|discriminate].
  intros H; inversion H; subst. eauto.
Qed.

Lemma visit_no_handler (f : nat) (s : option node) (v : SchemaVisitor) (t : string) :
  visit_impl TypeAdaptor (type_key s) = None -> visit f s v t = Some (v, t).
Proof. intros H. destruct f; cbn [visit]; rewrite H; reflexivity. Qed.

Lemma class_header_app (nm X : string) :
  exists body, class_header nm ++ X = "class " ++ nm ++ "{" ++ body.
Proof. unfold class_header. rewrite !string_app_assoc. eexists. reflexivity. Qed.

Lemma run_calls_cached {E : Type} parse (validate : node -> node -> option E) text
  (schema : node) (n : nat) (docs : list node) :
  run_calls parse validate text (mkFactoryState (Some schema) n) docs
  = (map (validate_and_build validate schema) docs, mkFactoryState (Some schema) n).
Proof.
  induction docs as [|d docs IH]; [reflexivity|].
  cbn [run_calls make_config schema_static map]. rewrite IH.
  unfold validate_and_build. destruct (validate schema d); reflexivity.
Qed.

Lemma visit_object_shape (f : nat) (s : option node) (v : SchemaVisitor)
  (types : string) (v' : SchemaVisitor) (types' : string) :
  visit_impl TypeAdaptor (type_key s) = Some KObject ->
  visit (S f) s v types = Some (v', types') ->
  return_type v' = name v ++ "Class"
  /\ exists body, types' = types ++ "class " ++ (name v ++ "Class") ++ "{" ++ body.
Proof.
  intros Hk Hv. cbn [visit] in Hv. rewrite Hk in Hv.
  destruct (emit_class_gen (visit f) s (name v ++ "Class") types) as [t1|] eqn:E;
    [|discriminate Hv].
  inversion Hv; subst. split; [reflexivity|].
  destruct (emit_class_gen_shape _ _ _ _ _ E) as [T [M [_ ->]]].
  destruct (class_header_app (name v ++ "Class") (T ++ M ++ "};" ++ nl)) as [body Hb].
  exists body. rewrite Hb. reflexivity.
Qed.

Lemma visit_array_shape (f : nat) (s : option node) (v : SchemaVisitor)
  (types : string) (v' : SchemaVisitor) (types' : string) :
  visit_impl TypeAdaptor (type_key s) = Some KArray ->
  visit (S f) s v types = Some (v', types') ->
  exists item,
    visit f (items s) (new_visitor (name v ++ "Item")) types = Some (item, types')
    /\ return_type v' = configNamespace ++ "::Range<" ++ return_type item ++ ", "
                       ++ adaptor item ++ ", true>".
Proof.
  intros Hk Hv. cbn [visit] in Hv. rewrite Hk in Hv.
  destruct (visit f (items s) (new_visitor (name v ++ "Item")) types) as [[item t1]|] eqn:E;
    [|discriminate Hv].
  inversion Hv; subst. exists item. split; reflexivity.
Qed.

Lemma for_loop_cursor (l : list node) (o : option node) (fuel : nat) :
  (length l < fuel)%nat -> for_loop fuel (Iter_incr (mkIter (Some l) o)) = l.
Proof.
  revert o fuel. induction l as [|x l IH]; intros o fuel Hf.
  - destruct fuel; reflexivity.
  - destruct fuel as [|fuel]; [simpl in Hf; lia|].
    change (x :: for_loop fuel (Iter_incr (mkIter (Some l) (Some x))) = x :: l).
    f_equal. apply IH. simpl in Hf. lia.
Qed.

(** A range over an array yields its elements in order, for either kind of
    range. *)
Lemma Range_elements_array (IterateProperties : bool) (l : list node) :
  Range_elements IterateProperties (mkRange (Some (NArr l))) = l.
Proof.
  assert (He : ucl_iter_elems (Some (NArr l)) = l).
  { unfold ucl_iter_elems, ucl_iter_keyed. rewrite map_map. apply map_id. }
  unfold Range_elements, Range_begin, Iter_new. cbn [array].
  rewrite He. destruct IterateProperties; cbn [negb andb is_ucl_array];
    apply (for_loop_cursor l None); lia.
Qed.

Definition is_scalar (n : node) : bool :=
  match n with
  | NObj _ | NArr _ => false
  | _ => true
  end.

(** A range over a scalar yields that one value, for either kind of range. *)
Lemma Range_elements_scalar (IterateProperties : bool) (x : node) :
  is_scalar x = true -> Range_elements IterateProperties (mkRange (Some x)) = [x].
Proof. destruct x; try discriminate; destruct IterateProperties; reflexivity. Qed.

Lemma replace_char_removes (c d : ascii) (s : string) :
  c <> d -> has_char c (replace_char c d s) = false.
Proof.
  intros Hcd. induction s as [|x s IH]; [reflexivity|]. simpl.
  rewrite IH, Bool.orb_false_r.
  destruct (Ascii.eqb c x) eqn:E.
  - apply Ascii.eqb_neq. exact Hcd.
  - exact E.
Qed.

(** Accessor names never contain a hyphen. *)
Lemma method_name_of_no_hyphen (k : string) : has_char "-" (method_name_of k) = false.
Proof.
  unfold method_name_of. destruct (has_char "-" k) eqn:E; [|exact E].
  apply replace_char_removes. discriminate.
Qed.

Lemma visit_impl_none_iff {A : Type} (tys : list (string * A)) (key : string) :
  visit_impl tys key = None <-> ~ In key (map fst tys).
Proof.
  induction tys as [|[k a] tys IH]; simpl; [tauto|].
  destruct (String.eqb_spec key k) as [->|Hne].
  - split; [discriminate | intros H; exfalso; apply H; left; reflexivity].
  - rewrite IH. split.
    + intros H1 [H2|H2]; [congruence | exact (H1 H2)].
    + intros H1 H2. apply H1. right. exact H2.
Qed.

Lemma EnumValueMap_lookup_missing (kvps : list (string * Z)) (key : string) :
  ~ In key (map fst kvps) -> EnumValueMap_lookup kvps key = static_cast_Type (-1).
Proof.
  induction kvps as [|[k v] kvps IH]; simpl; intros H; [reflexivity|].
  destruct (String.eqb_spec key k) as [->|Hne]; [exfalso; apply H; left; reflexivity|].
  apply IH. intros H'. apply H. right. exact H'.
Qed.

Lemma TypeEnumMap_keys (k : string) :
  In k (map fst TypeEnumMap) -> In k (map fst TypeAdaptor).
Proof. simpl. tauto. Qed.

Lemma number_bounds_range (s : option node) (lo hi : Z) :
  number_bounds s = Some (lo, hi) -> INT64_MIN <= lo /\ hi <= INT64_MAX.
Proof.
  unfold number_bounds.
  repeat match goal with
         | |- context [match ?c with Some _ => _ | None => _ end] => destruct c
         end; intros H; try discriminate H.
  inversion H; subst. lia.
Qed.

Definition probe_results : list (string * string) :=
  map (fun t => (ty_name t, ty_adaptor t)) probe_order.

Lemma fold_try_type_preserves (lo hi : Z) (ts : list IntTy) :
  forall w, In (return_type w, adaptor w) probe_results ->
  In (return_type (fold_left (try_type lo hi) ts w), adaptor (fold_left (try_type lo hi) ts w))
     probe_results.
Proof.
  induction ts as [|t ts IH]; intros w Hw; [exact Hw|].
  simpl. apply IH. unfold try_type. destruct (_ && _); [|exact Hw].
  destruct t; simpl; tauto.
Qed.

(** The probe for [int64_t] always succeeds, so whenever the bounds are
    defined the selected type is one of the eight candidates. *)
Lemma handleNumber_selects_some_type (v : SchemaVisitor) (s : option node)
  (isInteger : bool) (v' : SchemaVisitor) :
  integral_test s isInteger = Some true ->
  handleNumber v s isInteger = Some v' ->
  In (return_type v', adaptor v') probe_results.
Proof.
  unfold handleNumber. intros Ht. rewrite Ht. cbn [negb].
  destruct (number_bounds s) as [[lo hi]|] eqn:Eb; [|discriminate].
  intros H; inversion H; subst; clear H.
  destruct (number_bounds_range _ _ _ Eb) as [Hlo Hhi].
  change (fold_left (try_type lo hi) probe_order v)
    with (fold_left (try_type lo hi) [UInt64; Int32; UInt32; Int16; UInt16; Int8; UInt8]
            (try_type lo hi v Int64)).
  apply (fold_try_type_preserves lo hi [UInt64; Int32; UInt32; Int16; UInt16; Int8; UInt8]
           (try_type lo hi v Int64)).
  unfold try_type. cbn [ty_min ty_max as_common].
  rewrite (proj2 (Z.leb_le _ _) Hlo), (proj2 (Z.leb_le _ _) Hhi). simpl. tauto.
Qed.

Lemma emit_property_step (vis : VisitFn) (req : list string)
  (t m k : string) (p : option node) (t' m' : string) :
  emit_property vis req (t, m) (Some k, p) = Some (t', m') ->
  exists v, vis p (new_visitor (method_name_of k)) t = Some (v, t')
    /\ exists acc, m' = m ++ acc.
Proof.
  cbv beta iota zeta delta [emit_property].
  destruct (vis p (new_visitor (method_name_of k)) t) as [[v t1]|]; [|discriminate].
  intros H; inversion H; subst. exists v. split; [reflexivity|].
  eexists. rewrite string_app_assoc. reflexivity.
Qed.

(** ** Claims *)

(** C2. The accessor emitted for a property [k] is the resolved type
    [return_type v] of the property's visitor when [k] is in the required
    set, and [std::optional<return_type v>] built with [make_optional] on the
    document key [k] otherwise; at run time [make_optional] on
    [obj["k"]] is empty exactly when the key is absent and otherwise holds
    the adaptor's conversion of the document value. *)
Theorem accessor_declared_result (vis : VisitFn) (req : list string)
  (t m t' m' k : string) (p : option node)
  (H : emit_property vis req (t, m) (Some k, p) = Some (t', m')) :
  (exists v, vis p (new_visitor (method_name_of k)) t = Some (v, t') /\
    m' = m ++ description_text p ++
      (if existsb (String.eqb k) req
       then return_type v ++ " " ++ method_name_of k ++ "() const "
            ++ lifetimeAttribute v ++ " {" ++ "return " ++ adaptorNamespace v
            ++ adaptor v ++ "(obj[" ++ dq ++ k ++ dq ++ "]);}"
       else "std::optional<" ++ return_type v ++ "> " ++ method_name_of k
            ++ "() const " ++ lifetimeAttribute v ++ " {" ++ "return "
            ++ configNamespace ++ "::make_optional<" ++ adaptorNamespace v
            ++ adaptor v ++ ", " ++ return_type v ++ ">(obj[" ++ dq ++ k ++ dq
            ++ "]);}")
      ++ nl ++ nl)
  /\ (forall (T : Type) (Adaptor : node -> T) (doc : option node),
        (make_optional Adaptor (ucl_object_lookup doc k) = None
           <-> ucl_object_lookup doc k = None)
        /\ (forall n, ucl_object_lookup doc k = Some n ->
              make_optional Adaptor (ucl_object_lookup doc k) = Some (Adaptor n))).
Proof.
  split.
  - revert H. cbv beta iota zeta delta [emit_property].
    destruct (vis p (new_visitor (method_name_of k)) t) as [[v t1]|]; [|discriminate].
    intros H; inversion H; subst. exists v. split; [reflexivity|].
    rewrite string_app_assoc. reflexivity.
  - intros T Adaptor doc. split.
    + destruct (ucl_object_lookup doc k); simpl; split; congruence.
    + intros n ->. reflexivity.
Qed.

Lemma accessor_declared_result_witness :
  emit_property (visit 1) ["a"] ("", "") (Some "b", Some (NObj [("type", NStr "boolean")]))
    = Some ("", "std::optional<bool> b() const  {return ::config::detail::::make_optional<"
              ++ "::config::detail::BoolAdaptor, bool>(obj[" ++ dq ++ "b" ++ dq ++ "]);}" ++ nl ++ nl)
  /\ exists v, visit 1 (Some (NObj [("type", NStr "boolean")])) (new_visitor (method_name_of "b")) ""
                 = Some (v, "") /\ return_type v = "bool".
Proof.
  assert (H : emit_property (visit 1) ["a"] ("", "") (Some "b", Some (NObj [("type", NStr "boolean")]))
    = Some ("", "std::optional<bool> b() const  {return ::config::detail::::make_optional<"
              ++ "::config::detail::BoolAdaptor, bool>(obj[" ++ dq ++ "b" ++ dq ++ "]);}" ++ nl ++ nl))
    by reflexivity.
  split; [exact H|].
  destruct (accessor_declared_result _ _ _ _ _ _ _ _ H) as [[v [Hv _]] _].
  exists v. split; [exact Hv|]. vm_compute in Hv. inversion Hv. reflexivity.
Defined.

(** C10. A property whose schema has no ["type"] string among the six kinds
    gets no handler: its visitor keeps an empty [return_type] and [adaptor],
    the property step still succeeds and appends an accessor built from
    those empty fields, and that accessor text appears in every class
    [emit_class] produces for an object listing the property. *)
Theorem untyped_property_still_emitted (o : option node) (nm out res k : string)
  (p : option node)
  (Hkind : visit_impl TypeAdaptor (type_key p) = None)
  (Hin : In (Some k, p) (properties o))
  (Hemit : emit_class o nm out = Some res) :
  return_type (new_visitor (method_name_of k)) = ""
  /\ adaptor (new_visitor (method_name_of k)) = ""
  /\ (forall f req t m,
        emit_property (visit f) req (t, m) (Some k, p)
        = Some (t, m ++ description_text p
                   ++ method_text (existsb (String.eqb k) req) (method_name_of k) k
                        (new_visitor (method_name_of k)) ++ nl ++ nl))
  /\ exists pre post,
       res = pre ++ (description_text p
                     ++ method_text (existsb (String.eqb k) (required_properties o))
                          (method_name_of k) k (new_visitor (method_name_of k))
                     ++ nl ++ nl) ++ post.
Proof.
  assert (Hstep : forall f req t m,
    emit_property (visit f) req (t, m) (Some k, p)
    = Some (t, m ++ description_text p
               ++ method_text (existsb (String.eqb k) req) (method_name_of k) k
                    (new_visitor (method_name_of k)) ++ nl ++ nl)).
  { intros f req t m. cbv beta iota zeta delta [emit_property].
    rewrite visit_no_handler by exact Hkind. rewrite string_app_assoc. reflexivity. }
  split; [reflexivity|]. split; [reflexivity|]. split; [exact Hstep|].
  unfold emit_class in Hemit.
  destruct (emit_class_gen_shape _ _ _ _ _ Hemit) as [T [M [Hfold ->]]].
  destruct (fold_properties_contains _ _ _ _ (fun t m => ex_intro _ t (Hstep _ _ t m))
              _ _ _ _ _ Hin Hfold) as [pre [post ->]].
  exists (out ++ class_header nm ++ T ++ pre), (post ++ "};" ++ nl).
  rewrite !string_app_assoc. reflexivity.
Qed.

Definition untyped_schema : option node :=
  Some (NObj [("type", NStr "object");
              ("properties", NObj [("q", NObj [("typo", NStr "string")])]);
              ("required", NArr [NStr "q"])]).

Lemma untyped_property_still_emitted_witness :
  exists res, emit_class untyped_schema "Config" "" = Some res
  /\ exists pre post,
       res = pre ++ (" q() const  {return " ++ configNamespace ++ "(obj[" ++ dq ++ "q"
                     ++ dq ++ "]);}" ++ nl ++ nl) ++ post.
Proof.
  eexists. split; [reflexivity|].
  refine (proj2 (proj2 (proj2 (untyped_property_still_emitted untyped_schema "Config" ""
            _ "q" (Some (NObj [("typo", NStr "string")])) _ _ _)))); [reflexivity | | reflexivity].
  simpl. left. reflexivity.
Defined.

Definition collision_schema : option node :=
  Some (NObj [("type", NStr "object");
              ("properties", NObj [("a-b", NObj [("type", NStr "object")]);
                                   ("a_b", NObj [("type", NStr "object")])])]).

(** C6 (as amended). For a property with accessor name [S], an Object schema
    makes the visitor emit a nested class named [S ++ "Class"] into the
    [types] stream and return that name; an Array schema resolves its
    [items] under the name [S ++ "Item"] into the same [types] stream and
    returns the [Range] type over the item's type; each property's visitor
    is named by [method_name_of] of its key and writes types to [types]
    while its accessor goes to [methods]; the class text is the header,
    then [types], then [methods], then the closing [};]. The names need not
    be unique: the properties ["a-b"] and ["a_b"] both define [a_bClass]. *)
Theorem nested_type_naming_and_order :
  (forall f s v types v' types',
     visit_impl TypeAdaptor (type_key s) = Some KObject ->
     visit (S f) s v types = Some (v', types') ->
     return_type v' = name v ++ "Class"
     /\ exists body, types' = types ++ "class " ++ (name v ++ "Class") ++ "{" ++ body)
  /\ (forall f s v types v' types',
     visit_impl TypeAdaptor (type_key s) = Some KArray ->
     visit (S f) s v types = Some (v', types') ->
     exists item,
       visit f (items s) (new_visitor (name v ++ "Item")) types = Some (item, types')
       /\ return_type v' = configNamespace ++ "::Range<" ++ return_type item ++ ", "
                          ++ adaptor item ++ ", true>")
  /\ (forall vis req t m k p t' m',
     emit_property vis req (t, m) (Some k, p) = Some (t', m') ->
     exists v, vis p (new_visitor (method_name_of k)) t = Some (v, t')
       /\ exists acc, m' = m ++ acc)
  /\ (forall vis o nm out res,
     emit_class_gen vis o nm out = Some res ->
     exists T M,
       fold_properties vis (required_properties o) (properties o) ("", "") = Some (T, M)
       /\ res = out ++ class_header nm ++ T ++ M ++ "};" ++ nl)
  /\ (exists out, emit_class collision_schema "Config" "" = Some out
       /\ count_occ ("class " ++ "a_bClass" ++ "{") out = 2%nat).
Proof.
  split; [|split; [|split; [|split]]].
  - exact visit_object_shape.
  - exact visit_array_shape.
  - intros vis req t m k p t' m' H.
    exact (emit_property_step vis req t m k p t' m' H).
  - exact emit_class_gen_shape.
  - eexists. split; [reflexivity | vm_compute; reflexivity].
Qed.

(** C6, counterexample to uniqueness: the distinct properties ["a-b"] and
    ["a_b"] both yield a nested class [a_bClass], defined twice in the body
    of [Config]. *)
Lemma nested_type_name_collision :
  "a-b" <> "a_b"
  /\ exists out, emit_class collision_schema "Config" "" = Some out
     /\ count_occ ("class " ++ "a_bClass" ++ "{") out = 2%nat.
Proof.
  split; [discriminate|]. eexists. split; [reflexivity | vm_compute; reflexivity].
Qed.

(** C3. When the embedded schema text parses, a sequence of [make_config]
    calls in one process runs the static initialiser (the parse) exactly once
    if there is at least one call, validates every document against that one
    parsed schema, and returns for each document exactly one alternative of
    the variant: [Config(doc)] when validation succeeds, the validation error
    when it fails. *)
Theorem make_config_parse_once_validate_each {E : Type} (parse : string -> option node)
  (validate : node -> node -> option E) (text : string) (schema : node)
  (Hparse : parse text = Some schema) (docs : list node) :
  fst (run_calls parse validate text factory_init docs)
    = map (validate_and_build validate schema) docs
  /\ parse_runs (snd (run_calls parse validate text factory_init docs))
       = Nat.min 1 (length docs)
  /\ (forall doc,
        (validate schema doc = None
         /\ validate_and_build validate schema doc = Returned (inl (mkConfig doc)))
        \/ (exists err, validate schema doc = Some err
            /\ validate_and_build validate schema doc = Returned (inr err))).
Proof.
  split; [|split].
  - destruct docs as [|d docs]; [reflexivity|].
    cbn [run_calls make_config schema_static factory_init map]. rewrite Hparse.
    unfold validate_and_build at 1. destruct (validate schema d);
      rewrite run_calls_cached; reflexivity.
  - destruct docs as [|d docs]; [reflexivity|].
    cbn [run_calls make_config schema_static factory_init]. rewrite Hparse.
    unfold validate_and_build at 1. destruct (validate schema d);
      rewrite run_calls_cached; reflexivity.
  - intros doc. unfold validate_and_build.
    destruct (validate schema doc) as [err|]; [right; eauto | left; auto].
Qed.

Lemma make_config_parse_once_validate_each_witness :
  fst (run_calls (fun _ => Some NNull)
         (fun _ d => match d with NInt _ => Some tt | _ => None end)
         "{}" factory_init [NNull; NInt 1; NStr "x"])
    = [Returned (inl (mkConfig NNull)); Returned (inr tt); Returned (inl (mkConfig (NStr "x")))]
  /\ parse_runs (snd (run_calls (fun _ => Some NNull)
         (fun _ d => match d with NInt _ => Some tt | _ => None end)
         "{}" factory_init [NNull; NInt 1; NStr "x"])) = 1%nat.
Proof.
  destruct (make_config_parse_once_validate_each (fun _ => Some NNull)
              (fun _ d => match d with NInt _ => Some tt | _ => None end)
              "{}" NNull eq_refl [NNull; NInt 1; NStr "x"]) as [H1 [H2 _]].
  split; [rewrite H1 | rewrite H2]; reflexivity.
Defined.

Lemma Qtrunc_whole (d : Q) : is_whole d = true -> (inject_Z (Qtrunc d) == d)%Q.
Proof.
  unfold is_whole, Qtrunc, Qeq, inject_Z. simpl. intros H.
  apply Z.eqb_eq in H.
  pose proof (Z.quot_rem' (Qnum d) (Zpos (Qden d))) as Hqr. rewrite H in Hqr. nia.
Qed.

Lemma not_whole_not_int (d : Q) (w : Z) :
  is_whole d = false -> Qeq_bool (inject_Z w) d = false.
Proof.
  unfold is_whole. intros H. apply Bool.not_true_iff_false. intros Hq.
  apply Qeq_bool_iff in Hq. unfold Qeq, inject_Z in Hq. simpl in Hq.
  apply Z.eqb_neq in H. apply H. rewrite Z.mul_1_r in Hq. rewrite <- Hq.
  apply Z.rem_mul. lia.
Qed.

Lemma to_uint64_in_range (d : Q) :
  (-1 < d)%Q -> (d < inject_Z (2 ^ 64))%Q -> to_uint64 d = Some (Qtrunc d).
Proof.
  unfold to_uint64, Qtrunc, Qlt, inject_Z. simpl. intros H1 H2.
  set (n := Qnum d) in *. set (den := Zpos (Qden d)) in *.
  assert (Hd : 0 < den) by (unfold den; lia).
  assert (Hlo : 0 <= Z.quot n den).
  { destruct (Z.le_gt_cases 0 n) as [Hn|Hn].
    - apply Z.quot_pos; lia.
    - replace n with (- (- n)) by lia. rewrite Z.quot_opp_l by lia.
      rewrite Z.quot_small; lia. }
  assert (Hhi : Z.quot n den <= UINT64_MAX).
  { unfold UINT64_MAX.
    destruct (Z.le_gt_cases 0 n) as [Hn|Hn].
    - rewrite Z.quot_div_nonneg by lia.
      assert (n / den < 2 ^ 64); [apply Z.div_lt_upper_bound; lia | lia].
    - replace n with (- (- n)) by lia. rewrite Z.quot_opp_l by lia.
      rewrite Z.quot_small; lia. }
  rewrite (proj2 (Z.leb_le _ _) Hlo), (proj2 (Z.leb_le _ _) Hhi). reflexivity.
Qed.

(** Where the [(uint64_t)] conversion of [multipleOf] is defined (the
    doubles strictly between -1 and 2^64), [handleNumber] treats a
    Number/Integer schema as integral exactly when the schema kind is Integer
    ([isInteger]) or [multipleOf] is present and a whole number; a
    non-integral schema resolves to [double] with [DoubleAdaptor] whatever its
    bounds are. *)
Theorem handleNumber_integral_iff (s : option node) (isInteger : bool)
  (Hm : forall m, isInteger = false -> multipleOf s = Some m ->
        is_double m = true /\ (-1 < m)%Q /\ (m < inject_Z (2 ^ 64))%Q) :
  integral_test s isInteger
    = Some (isInteger || match multipleOf s with Some m => is_whole m | None => false end)
  /\ ((isInteger || match multipleOf s with Some m => is_whole m | None => false end) = false ->
      forall v, handleNumber v s isInteger = Some (set_result "double" "DoubleAdaptor" v)).
Proof.
  assert (Ht : integral_test s isInteger
    = Some (isInteger || match multipleOf s with Some m => is_whole m | None => false end)).
  { unfold integral_test. destruct isInteger; [reflexivity|].
    destruct (multipleOf s) as [m|] eqn:Em; [|reflexivity].
    destruct (Hm m eq_refl eq_refl) as [Hdbl [H1 H2]].
    rewrite (to_uint64_in_range m H1 H2). simpl.
    destruct (is_whole m) eqn:Hw.
    - unfold is_double in Hdbl. rewrite Hw in Hdbl. apply Z.eqb_eq in Hdbl.
      rewrite Hdbl. apply f_equal. apply Qeq_bool_iff. now apply Qtrunc_whole.
    - now rewrite not_whole_not_int. }
  split; [exact Ht|].
  intros Hb v. unfold handleNumber. rewrite Ht, Hb. reflexivity.
Qed.

Definition half_step_schema : option node :=
  Some (NObj [("type", NStr "number"); ("multipleOf", NFloat (1 # 2));
              ("minimum", NInt 0)]).

Lemma handleNumber_integral_iff_example :
  integral_test half_step_schema false = Some false
  /\ handleNumber (new_visitor "x") half_step_schema false
       = Some (set_result "double" "DoubleAdaptor" (new_visitor "x")).
Proof.
  assert (Hm : forall m, false = false -> multipleOf half_step_schema = Some m ->
        is_double m = true /\ (-1 < m)%Q /\ (m < inject_Z (2 ^ 64))%Q).
  { intros m _ H. vm_compute in H. inversion H; subst.
    split; [reflexivity|]. unfold Qlt; simpl; lia. }
  destruct (handleNumber_integral_iff half_step_schema false Hm) as [H1 H2].
  split; [exact H1 | exact (H2 eq_refl (new_visitor "x"))].
Defined.

Lemma to_uint64_out_of_range (d : Q) :
  (d <= -1)%Q \/ (inject_Z (2 ^ 64) <= d)%Q -> to_uint64 d = None.
Proof.
  unfold to_uint64, Qtrunc, Qle, inject_Z, UINT64_MAX. simpl.
  set (n := Qnum d). set (den := Zpos (Qden d)).
  assert (Hd : 0 < den) by (unfold den; lia).
  intros [H|H].
  - assert (Hq : Z.quot n den <= -1).
    { replace n with (- (- n)) by lia. rewrite Z.quot_opp_l by lia.
      rewrite Z.quot_div_nonneg by lia.
      assert (1 <= - n / den) by (apply Z.div_le_lower_bound; lia). lia. }
    destruct (0 <=? Z.quot n den) eqn:E1; [apply Z.leb_le in E1; lia | reflexivity].
  - assert (Hq : 2 ^ 64 <= Z.quot n den).
    { rewrite Z.quot_div_nonneg by lia. apply Z.div_le_lower_bound; lia. }
    destruct (0 <=? Z.quot n den); destruct (Z.quot n den <=? _) eqn:E2;
      try reflexivity. apply Z.leb_le in E2. lia.
Qed.

(** C4. The integrality test of [handleNumber] converts [multipleOf] with
    [(uint64_t)], which is undefined for a [multipleOf] of at most -1 or of
    at least 2^64: for a Number schema with such a [multipleOf] (a whole
    number such as [1e20] or [-2] among them) the test, and so the
    resolution, is undefined instead of yielding an integral type. *)
Theorem whole_multipleOf_outside_uint64_undefined (s : option node) (m : Q)
  (v : SchemaVisitor)
  (Hm : multipleOf s = Some m)
  (Hout : (m <= -1)%Q \/ (inject_Z (2 ^ 64) <= m)%Q) :
  integral_test s false = None /\ handleNumber v s false = None.
Proof.
  assert (Ht : integral_test s false = None).
  { unfold integral_test. rewrite Hm, (to_uint64_out_of_range m Hout). reflexivity. }
  split; [exact Ht|]. unfold handleNumber. rewrite Ht. reflexivity.
Qed.

Definition huge_step_schema : option node :=
  Some (NObj [("type", NStr "number"); ("multipleOf", NFloat (inject_Z (10 ^ 20)))]).

Lemma whole_multipleOf_outside_uint64_undefined_witness :
  is_whole (inject_Z (10 ^ 20)) = true /\ is_double (inject_Z (10 ^ 20)) = true
  /\ integral_test huge_step_schema false = None
  /\ handleNumber (new_visitor "x") huge_step_schema false = None.
Proof.
  split; [vm_compute; reflexivity|]. split; [vm_compute; reflexivity|].
  apply (whole_multipleOf_outside_uint64_undefined huge_step_schema (inject_Z (10 ^ 20))
           (new_visitor "x")); [reflexivity|].
  right. unfold Qle. simpl. lia.
Defined.

(** Numeric resolution where the bounds are given on both sides. *)
Definition byte_schema : option node :=
  Some (NObj [("type", NStr "integer"); ("minimum", NInt 0); ("maximum", NInt 255)]).
Definition small_signed_schema : option node :=
  Some (NObj [("type", NStr "integer"); ("minimum", NInt (-100)); ("maximum", NInt 100)]).

Lemma numeric_narrowing_examples :
  handleNumber (new_visitor "x") byte_schema true
    = Some (set_result "uint8_t" "UInt8Adaptor" (new_visitor "x"))
  /\ handleNumber (new_visitor "x") small_signed_schema true
    = Some (set_result "int8_t" "Int8Adaptor" (new_visitor "x")).
Proof. split; vm_compute; reflexivity. Qed.

Definition int_schema_neg : option node :=
  Some (NObj [("type", NStr "integer"); ("minimum", NInt (- 2 ^ 40)); ("maximum", NInt 0)]).
Definition int_schema_unbounded : option node :=
  Some (NObj [("type", NStr "integer")]).

(** C1 (code bug). The [uint64_t] probe compares the [int64_t] bounds with
    [uint64_t] limits, which converts them to unsigned: a negative lower bound
    wraps to a large value, so the probe accepts it. For the interval
    [[-2^40, 0]], which [uint64_t] does not contain, the code resolves the
    type to [uint64_t]; and with no bounds the computation of the upper bound
    is undefined, so no type is selected at all. *)
Theorem probe_uint64_accepts_negative_bounds :
  number_bounds int_schema_neg = Some (- 2 ^ 40, 0)
  /\ - 2 ^ 40 < ty_min UInt64
  /\ handleNumber (new_visitor "x") int_schema_neg true
       = Some (set_result "uint64_t" "UInt64Adaptor" (new_visitor "x"))
  /\ visit 1 int_schema_neg (new_visitor "x") ""
       = Some (set_result "uint64_t" "UInt64Adaptor" (new_visitor "x"), "")
  /\ handleNumber (new_visitor "x") int_schema_unbounded true = None.
Proof.
  split; [vm_compute; reflexivity|].
  split; [cbn; lia|].
  split; [vm_compute; reflexivity|].
  split; vm_compute; reflexivity.
Qed.

Definition exclusive_schema : option node :=
  Some (NObj [("type", NStr "integer"); ("exclusiveMinimum", NInt 5);
              ("exclusiveMaximum", NInt 10); ("maximum", NInt 20)]).

(** C5 (code bug). The upper bound starts from [INT64_MAX], but
    [maximum().value_or(max)] converts it to the [double] 2^63, and
    [static_cast<int64_t>] of 2^63 is undefined: every schema without a
    [maximum] makes the bound computation undefined. With a [maximum] the
    exclusive bounds are taken as inclusive, with no adjustment by one. *)
Theorem default_upper_bound_undefined :
  Z_to_double INT64_MAX = 2 ^ 63
  /\ to_int64 (value_or None INT64_MAX) = None
  /\ (forall s, maximum s = None -> number_bounds s = None)
  /\ number_bounds exclusive_schema = Some (5, 10).
Proof.
  split; [vm_compute; reflexivity|].
  split; [vm_compute; reflexivity|].
  split; [|vm_compute; reflexivity].
  intros s Hm. unfold number_bounds.
  destruct (to_int64 (value_or (minimum s) INT64_MIN)) as [c1|]; [|reflexivity].
  destruct (to_int64 (value_or (exclusiveMinimum s) (Z.max INT64_MIN c1))) as [c2|];
    [|reflexivity].
  rewrite Hm. vm_compute. reflexivity.
Qed.

Lemma default_upper_bound_undefined_witness :
  maximum int_schema_unbounded = None /\ number_bounds int_schema_unbounded = None.
Proof.
  assert (Hm : maximum int_schema_unbounded = None) by reflexivity.
  split; [exact Hm|].
  exact (proj1 (proj2 (proj2 default_upper_bound_undefined)) int_schema_unbounded Hm).
Defined.

Definition object_doc : node := NObj [("a", NInt 1); ("b", NInt 2)].

Definition bool_array_schema : option node :=
  Some (NObj [("type", NStr "array"); ("items", NObj [("type", NStr "boolean")])]).

(** C7 (code bug). The visitor declares every array property as a [Range]
    whose [IterateProperties] argument is [true]. Such a range yields the
    elements of an array and a lone scalar as itself, but over an object it
    yields the object's member values, not the object as the one element
    that the [false] range yields. *)
Theorem array_range_iterates_object_members :
  visit 1 bool_array_schema (new_visitor "xs") ""
    = Some (mkSchemaVisitor
              (configNamespace ++ "::Range<bool, BoolAdaptor, true>")
              (configNamespace ++ "::Range<bool, BoolAdaptor, true>")
              (configNamespace ++ "::Range<bool, BoolAdaptor, true>")
              "" "" "xs", "")
  /\ (forall l, Range_elements true (mkRange (Some (NArr l))) = l)
  /\ (forall x, is_scalar x = true -> Range_elements true (mkRange (Some x)) = [x])
  /\ Range_elements true (mkRange (Some object_doc)) = [NInt 1; NInt 2]
  /\ Range_elements false (mkRange (Some object_doc)) = [object_doc].
Proof.
  split; [vm_compute; reflexivity|].
  split; [intros l; apply Range_elements_array|].
  split; [intros x; apply Range_elements_scalar|].
  split; vm_compute; reflexivity.
Qed.

Definition dotted_schema : option node :=
  Some (NObj [("type", NStr "object");
              ("properties", NObj [("max.items", NObj [("type", NStr "boolean")])]);
              ("required", NArr [NStr "max.items"])]).

(** C8 (code bug). Only the hyphen is replaced when the accessor name is
    derived from a property name: ["max-items"] gives the identifier
    [max_items], but ["max.items"] is kept as it is, and the generated class
    declares a method named [max.items], which is no C++ identifier. *)
Theorem accessor_name_keeps_other_characters :
  method_name_of "max-items" = "max_items"
  /\ is_identifier "max_items" = true
  /\ method_name_of "max.items" = "max.items"
  /\ is_identifier (method_name_of "max.items") = false
  /\ exists out, emit_class dotted_schema "Config" "" = Some out
     /\ count_occ ("bool max.items() const  {return " ++ configNamespace
                   ++ "BoolAdaptor(obj[" ++ dq ++ "max.items" ++ dq ++ "]);}") out = 1%nat.
Proof.
  split; [reflexivity|]. split; [reflexivity|].
  split; [reflexivity|]. split; [reflexivity|].
  eexists. split; [reflexivity | vm_compute; reflexivity].
Qed.

(** C9 (code bug). A discriminator that is not one of the six kind strings
    selects no handler, but the enum mapping does not fail cleanly: a missing
    or non-string ["type"] gives [ucl_object_tostring] a null result that
    [EnumAdaptor] turns into a [std::string_view] (undefined), and any other
    string reaches [static_cast<Type>(-1)], outside the values of [Type]
    (undefined). *)
Theorem unknown_kind_mapping_undefined (s : option node) (f : nat)
  (v : SchemaVisitor) (t : string) :
  visit_impl TypeAdaptor (type_key s) = None ->
  visit f s v t = Some (v, t) /\ schema_type s = None.
Proof.
  intros Hk. split; [apply visit_no_handler; exact Hk|].
  unfold type_key, StringViewAdaptor, schema_type in *.
  destruct (ucl_object_tostring (ucl_object_lookup s "type")) as [k|]; [|reflexivity].
  rewrite EnumValueMap_lookup_missing; [reflexivity|].
  intros Hin. apply (proj1 (visit_impl_none_iff TypeAdaptor k) Hk).
  apply TypeEnumMap_keys. exact Hin.
Qed.

Lemma unknown_kind_mapping_undefined_witness :
  type_key (Some (NObj [])) = ""
  /\ visit 3 (Some (NObj [])) (new_visitor "p") "" = Some (new_visitor "p", "")
  /\ schema_type (Some (NObj [])) = None
  /\ schema_type (Some (NObj [("type", NStr "null")])) = None.
Proof.
  split; [reflexivity|].
  split; [exact (proj1 (unknown_kind_mapping_undefined (Some (NObj [])) 3
                          (new_visitor "p") "" eq_refl))|].
  split; [exact (proj2 (unknown_kind_mapping_undefined (Some (NObj [])) 3
                          (new_visitor "p") "" eq_refl))|].
  exact (proj2 (unknown_kind_mapping_undefined (Some (NObj [("type", NStr "null")])) 0
                  (new_visitor "p") "" eq_refl)).
Defined.

(** ** Further properties of the generator and its runtime header *)

(** *** The [replace] loop of [main] *)

Definition esc_one (c : ascii) (repl : list ascii) (x : ascii) : list ascii :=
  if Ascii.eqb c x then repl else [x].

Lemma find_first_free (c : ascii) (u : list ascii) :
  (forall x, In x u -> x <> c) -> find_first [c] u = None.
Proof.
  induction u as [|x u IH]; intros Hu; [reflexivity|].
  simpl. rewrite Bool.andb_true_r.
  destruct (Ascii.eqb_spec c x) as [->|_]; [exfalso; apply (Hu x); [left|]; reflexivity|].
  rewrite IH; [reflexivity|]. intros y Hy. apply Hu. right. exact Hy.
Qed.

Lemma find_first_hit (c : ascii) (u w : list ascii) :
  (forall x, In x u -> x <> c) -> find_first [c] (u ++ c :: w) = Some (length u).
Proof.
  induction u as [|x u IH]; intros Hu.
  - simpl. rewrite Ascii.eqb_refl. reflexivity.
  - simpl. rewrite Bool.andb_true_r.
    destruct (Ascii.eqb_spec c x) as [->|_]; [exfalso; apply (Hu x); [left|]; reflexivity|].
    rewrite IH; [reflexivity|]. intros y Hy. apply Hu. right. exact Hy.
Qed.

Lemma split_first (c : ascii) (l : list ascii) :
  (forall x, In x l -> x <> c)
  \/ exists u w, l = (u ++ c :: w)%list /\ forall x, In x u -> x <> c.
Proof.
  induction l as [|x l IH].
  - left. intros x [].
  - destruct (ascii_dec x c) as [->|Hx].
    + right. exists [], l. split; [reflexivity | intros y []].
    + destruct IH as [Hl | [u [w [-> Hu]]]].
      * left. intros y [<-|Hy]; [exact Hx | exact (Hl y Hy)].
      * right. exists (x :: u), w. split; [reflexivity|].
        intros y [<-|Hy]; [exact Hx | exact (Hu y Hy)].
Qed.

Lemma flat_map_esc_free (c : ascii) (repl u : list ascii) :
  (forall x, In x u -> x <> c) -> flat_map (esc_one c repl) u = u.
Proof.
  induction u as [|x u IH]; intros Hu; [reflexivity|].
  simpl. unfold esc_one at 1.
  destruct (Ascii.eqb_spec c x) as [->|_]; [exfalso; apply (Hu x); [left|]; reflexivity|].
  simpl. rewrite IH; [reflexivity|]. intros y Hy. apply Hu. right. exact Hy.
Qed.

Lemma skipn_app_length {A : Type} (d r : list A) : skipn (length d) (d ++ r) = r.
Proof. induction d as [|x d IH]; [reflexivity | exact IH]. Qed.

Lemma firstn_app_length {A : Type} (d r : list A) : firstn (length d) (d ++ r) = d.
Proof. induction d as [|x d IH]; [reflexivity | simpl; now rewrite IH]. Qed.

Lemma replace_loop_single (c : ascii) (repl : list ascii) (n : nat) :
  forall rest d fuel, (length rest <= n)%nat -> (length rest < fuel)%nat ->
  replace_loop fuel [c] repl (d ++ rest) (length d) = (d ++ flat_map (esc_one c repl) rest)%list.
Proof.
  induction n as [|n IH]; intros rest d fuel Hn Hf;
    (destruct fuel as [|f]; [lia|]);
    destruct (split_first c rest) as [Hfree | [u [w [-> Hu]]]].
  - cbn [replace_loop]. unfold string_find.
    rewrite (proj2 (Nat.leb_le _ _)) by (rewrite length_app; lia).
    rewrite skipn_app_length, find_first_free by exact Hfree. simpl.
    rewrite flat_map_esc_free by exact Hfree. reflexivity.
  - rewrite length_app in Hn. simpl in Hn. lia.
  - cbn [replace_loop]. unfold string_find.
    rewrite (proj2 (Nat.leb_le _ _)) by (rewrite length_app; lia).
    rewrite skipn_app_length, find_first_free by exact Hfree. simpl.
    rewrite flat_map_esc_free by exact Hfree. reflexivity.
  - cbn [replace_loop]. unfold string_find.
    rewrite (proj2 (Nat.leb_le _ _)) by (rewrite length_app; lia).
    rewrite skipn_app_length, find_first_hit by exact Hu. simpl.
    unfold string_replace.
    replace (d ++ u ++ c :: w)%list with ((d ++ u) ++ [c] ++ w)%list
      by (rewrite <- app_assoc; reflexivity).
    replace (length d + length u)%nat with (length (d ++ u)) by (rewrite length_app; lia).
    rewrite firstn_app_length.
    replace (length (d ++ u) + 1)%nat with (length ((d ++ u) ++ [c])) by (rewrite length_app; reflexivity).
    rewrite (app_assoc (d ++ u) [c] w), skipn_app_length.
    replace (length (d ++ u) + length repl)%nat with (length ((d ++ u) ++ repl))
      by (rewrite length_app; reflexivity).
    rewrite (app_assoc (d ++ u) repl w).
    rewrite (IH w ((d ++ u) ++ repl)%list f).
    + assert (Ec : esc_one c repl c = repl) by (unfold esc_one; now rewrite Ascii.eqb_refl).
      rewrite flat_map_app. cbn [flat_map]. rewrite Ec.
      rewrite (flat_map_esc_free c repl u Hu). rewrite <- !app_assoc. reflexivity.
    + rewrite length_app in Hn. simpl in Hn. lia.
    + rewrite length_app in Hf. simpl in Hf. lia.
Qed.

Lemma replace_single (c : ascii) (repl s : list ascii) :
  replace [c] repl s = flat_map (esc_one c repl) s.
Proof.
  unfold replace. apply (replace_loop_single c repl (length s) s [] (S (length s))); lia.
Qed.

Lemma esc_one_other (c : ascii) (repl : list ascii) (x : ascii) :
  c <> x -> esc_one c repl x = [x].
Proof. intros H. unfold esc_one. destruct (Ascii.eqb_spec c x); [contradiction | reflexivity]. Qed.

Definition esc_char (x : ascii) : list ascii :=
  if Ascii.eqb x bs then [bs; bs]
  else if Ascii.eqb x quote then [bs; quote]
  else if Ascii.eqb x newline then [bs; "n"%char]
  else [x].

Lemma escape_schema_chars (s : list ascii) : escape_schema s = flat_map esc_char s.
Proof.
  unfold escape_schema. rewrite !replace_single.
  induction s as [|x s IH]; [reflexivity|].
  simpl. rewrite !flat_map_app, IH. f_equal.
  unfold esc_char.
  destruct (Ascii.eqb_spec x bs) as [->|Hb]; [reflexivity|].
  destruct (Ascii.eqb_spec x quote) as [->|Hq]; [reflexivity|].
  destruct (Ascii.eqb_spec x newline) as [->|Hn]; [reflexivity|].
  rewrite (esc_one_other bs _ x) by congruence. cbn [flat_map]. rewrite app_nil_r.
  rewrite (esc_one_other quote _ x) by congruence. cbn [flat_map]. rewrite app_nil_r.
  rewrite (esc_one_other newline _ x) by congruence. reflexivity.
Qed.

Lemma c_literal_body_escape (e d : ascii) (t : list ascii) :
  ascii_assoc e simple_escapes = Some d ->
  c_literal_body (bs :: e :: t) = option_map (cons d) (c_literal_body t).
Proof.
  intros H. cbn [c_literal_body]. rewrite Ascii.eqb_refl, H.
  destruct (c_literal_body t); reflexivity.
Qed.

Lemma c_literal_body_plain (x : ascii) (t : list ascii) :
  x <> bs -> x <> quote -> x <> newline -> x <> cr ->
  c_literal_body (x :: t) = option_map (cons x) (c_literal_body t).
Proof.
  intros H1 H2 H3 H4. cbn [c_literal_body].
  destruct (Ascii.eqb_spec x bs); [contradiction|].
  destruct (Ascii.eqb_spec x quote); [contradiction|].
  destruct (Ascii.eqb_spec x newline); [contradiction|].
  destruct (Ascii.eqb_spec x cr); [contradiction|].
  simpl. destruct (c_literal_body t); reflexivity.
Qed.

Lemma escape_schema_decodes (s : list ascii) (Hcr : ~ In cr s) :
  c_literal_body (escape_schema s) = Some s.
Proof.
  rewrite escape_schema_chars.
  induction s as [|x s IH]; [reflexivity|].
  assert (IH' : c_literal_body (flat_map esc_char s) = Some s)
    by (apply IH; intros H; apply Hcr; right; exact H).
  cbn [flat_map].
  destruct (Ascii.eqb_spec x bs) as [->|Hb].
  { change (esc_char bs) with [bs; bs]. cbn [app].
    rewrite (c_literal_body_escape bs bs) by reflexivity. now rewrite IH'. }
  destruct (Ascii.eqb_spec x quote) as [->|Hq].
  { change (esc_char quote) with [bs; quote]. cbn [app].
    rewrite (c_literal_body_escape quote quote) by reflexivity. now rewrite IH'. }
  destruct (Ascii.eqb_spec x newline) as [->|Hn].
  { change (esc_char newline) with [bs; "n"%char]. cbn [app].
    rewrite (c_literal_body_escape "n"%char newline) by reflexivity. now rewrite IH'. }
  assert (Ex : esc_char x = [x]).
  { unfold esc_char. destruct (Ascii.eqb_spec x bs); [contradiction|].
    destruct (Ascii.eqb_spec x quote); [contradiction|].
    destruct (Ascii.eqb_spec x newline); [contradiction | reflexivity]. }
  rewrite Ex. cbn [app].
  rewrite c_literal_body_plain; [now rewrite IH' | exact Hb | exact Hq | exact Hn |].
  intros ->. apply Hcr. left. reflexivity.
Qed.

(** [main] escapes the schema text so that, placed between quotes, it is a
    C++ string literal denoting exactly that text: decoding the escaped text
    gives the original back, for every text without a carriage return. *)
Theorem escaped_schema_literal_decodes (s : list ascii) (Hcr : ~ In cr s) :
  c_literal_body (escape_schema s) = Some s.
Proof. exact (escape_schema_decodes s Hcr). Qed.

Definition sample_schema_text : list ascii :=
  list_ascii_of_string ("{" ++ dq ++ "description" ++ dq ++ ":" ++ dq ++ "a\b" ++ dq ++ "}" ++ nl).

Lemma escaped_schema_literal_decodes_witness :
  ~ In cr sample_schema_text
  /\ c_literal_body (escape_schema sample_schema_text) = Some sample_schema_text.
Proof.
  assert (H : ~ In cr sample_schema_text) by (vm_compute; intuition discriminate).
  split; [exact H | exact (escaped_schema_literal_decodes sample_schema_text H)].
Defined.

(** *** The output of [main] *)

Lemma some_eq {A : Type} (a b : A) : Some a = Some b -> a = b.
Proof. intros H; injection H; trivial. Qed.

(** With [--embed-schema], the output of [main] defines [embeddedSchema] by a
    string literal whose text decodes to the compact JSON of the schema. *)
Theorem main_embeds_schema_literal (configClass : string) (schema : list ascii)
  (conf : option node) (out : string)
  (Hcr : ~ In cr schema)
  (H : main_output configClass true schema conf = Some out) :
  exists pre post lit,
    out = pre ++ "static const char embeddedSchema[] = " ++ dq ++ string_of_list_ascii lit
          ++ dq ++ ";" ++ post
    /\ c_literal_body lit = Some schema.
Proof.
  unfold main_output in H.
  destruct (emit_class conf configClass _) as [o|]; [|discriminate H].
  apply some_eq in H. subst out.
  exists (o ++ "inline std::variant<" ++ configClass ++ ", ucl_schema_error> "
          ++ "make_config(ucl_object_t *obj) {"
          ++ "static const ucl_object_t *schema = []() {").
  eexists. exists (escape_schema schema). split.
  - rewrite !string_app_assoc. reflexivity.
  - exact (escape_schema_decodes schema Hcr).
Qed.

Definition sample_conf : option node :=
  Some (NObj [("type", NStr "object");
              ("properties", NObj [("b", NObj [("type", NStr "boolean")])])]).

Lemma main_embeds_schema_literal_witness :
  exists out, main_output "Config" true sample_schema_text sample_conf = Some out
  /\ exists pre post lit,
       out = pre ++ "static const char embeddedSchema[] = " ++ dq ++ string_of_list_ascii lit
             ++ dq ++ ";" ++ post
       /\ c_literal_body lit = Some sample_schema_text.
Proof.
  eexists. split; [reflexivity|].
  apply (main_embeds_schema_literal "Config" sample_schema_text sample_conf);
    [vm_compute; intuition discriminate | reflexivity].
Defined.

(** *** [Range::empty] *)

(** [empty()] and iteration disagree: a range over a UCL null reports
    [empty()] yet yields that null once, and a range over an empty array is
    not [empty()] yet yields nothing. A range reported empty yields nothing
    only when its object is [nullptr]. *)
Theorem Range_empty_vs_iteration (IterateProperties : bool) (r : Range) :
  (Range_empty r = true ->
     (array r = None /\ Range_elements IterateProperties r = [])
     \/ (array r = Some NNull /\ Range_elements IterateProperties r = [NNull]))
  /\ (forall l, Range_empty (mkRange (Some (NArr l))) = false
       /\ (Range_elements IterateProperties (mkRange (Some (NArr l))) = [] <-> l = [])).
Proof.
  split.
  - destruct r as [[n|]]; unfold Range_empty; cbn [array].
    + destruct n; try discriminate. intros _. right. split; [reflexivity|].
      apply Range_elements_scalar. reflexivity.
    + intros _. left. split; [reflexivity|].
      destruct IterateProperties; reflexivity.
  - intros l. split; [reflexivity|]. rewrite Range_elements_array. tauto.
Qed.

(** *** Integer adaptors *)

Lemma int_cast_small (t : IntTy) (x : Z) :
  ty_min t <= x <= ty_max t -> int_cast t x = x.
Proof.
  intros H. unfold ty_min, ty_max, INT64_MIN, INT64_MAX, UINT64_MAX in H.
  destruct t; unfold int_cast; cbn [ty_signed ty_width];
    (rewrite Z.mod_small; [ring | simpl in *; lia]).
Qed.

Lemma int_cast_bounds (t : IntTy) (x : Z) : ty_min t <= int_cast t x <= ty_max t.
Proof.
  unfold ty_min, ty_max, INT64_MIN, INT64_MAX, UINT64_MAX.
  destruct t; unfold int_cast; cbn [ty_signed ty_width];
    match goal with
    | |- context [?a mod ?m] =>
        assert (Hm : 0 <= a mod m < m) by (apply Z.mod_pos_bound; simpl; lia)
    end; simpl in *; lia.
Qed.

(** An integer adaptor returns a document integer unchanged exactly when it
    lies in the range of the adaptor's type; in every case it returns the
    value of that range congruent to the integer modulo 2^w (so [Int8Adaptor]
    reads 200 as -56). *)
Lemma int_cast_congr (t : IntTy) (x : Z) : (int_cast t x - x) mod 2 ^ ty_width t = 0.
Proof.
  assert (Hw : 2 ^ ty_width t <> 0) by (destruct t; simpl; lia).
  unfold int_cast. destruct (ty_signed t).
  - rewrite (Z.mod_eq (x + 2 ^ (ty_width t - 1)) (2 ^ ty_width t) Hw).
    replace (x + 2 ^ (ty_width t - 1) - 2 ^ ty_width t * ((x + 2 ^ (ty_width t - 1)) / 2 ^ ty_width t)
             - 2 ^ (ty_width t - 1) - x)
      with (- ((x + 2 ^ (ty_width t - 1)) / 2 ^ ty_width t) * 2 ^ ty_width t) by ring.
    apply Z.mod_mul. exact Hw.
  - rewrite (Z.mod_eq x (2 ^ ty_width t) Hw).
    replace (x - 2 ^ ty_width t * (x / 2 ^ ty_width t) - x)
      with (- (x / 2 ^ ty_width t) * 2 ^ ty_width t) by ring.
    apply Z.mod_mul. exact Hw.
Qed.

Lemma number_adaptor_in_range (t : IntTy) (x : Z) :
  ty_min t <= x <= ty_max t -> NumberAdaptor t (Some (NInt x)) = Some x.
Proof.
  intros H. unfold NumberAdaptor. cbn [ucl_object_toint].
  rewrite int_cast_small by exact H. reflexivity.
Qed.

Theorem number_adaptor_exact_iff (t : IntTy) (x : Z) :
  (NumberAdaptor t (Some (NInt x)) = Some x <-> ty_min t <= x <= ty_max t)
  /\ exists r, NumberAdaptor t (Some (NInt x)) = Some r
       /\ ty_min t <= r <= ty_max t /\ (r - x) mod 2 ^ ty_width t = 0.
Proof.
  unfold NumberAdaptor. cbn [ucl_object_toint]. split; [split|].
  - intros H. inversion H as [Hc]. rewrite <- Hc. apply int_cast_bounds.
  - intros H. rewrite int_cast_small by exact H. reflexivity.
  - exists (int_cast t x). split; [reflexivity|].
    split; [apply int_cast_bounds | apply int_cast_congr].
Qed.

Definition fits (lo hi : Z) (t : IntTy) : bool :=
  (ty_min t <=? as_common t lo) && (as_common t hi <=? ty_max t).

Lemma fold_try_type_selects (lo hi : Z) (v : SchemaVisitor) (ts : list IntTy) :
  forall w, (exists t, fits lo hi t = true /\ w = set_result (ty_name t) (ty_adaptor t) v) ->
  exists t, fits lo hi t = true
    /\ fold_left (try_type lo hi) ts w = set_result (ty_name t) (ty_adaptor t) v.
Proof.
  induction ts as [|a ts IH]; intros w Hw; [exact Hw|].
  simpl. apply IH. unfold try_type.
  destruct ((ty_min a <=? as_common a lo) && (as_common a hi <=? ty_max a)) eqn:E;
    [|exact Hw].
  exists a. split; [exact E|]. destruct Hw as [t [_ ->]]. reflexivity.
Qed.

(** The integer type [handleNumber] selects reads every document integer
    within the schema's bounds back unchanged, except a negative one when the
    selected type is [uint64_t], which comes back increased by 2^64. *)
Theorem selected_adaptor_reads_bounded_values (v : SchemaVisitor) (s : option node)
  (isInteger : bool) (v' : SchemaVisitor) (lo hi x : Z)
  (Hint : integral_test s isInteger = Some true)
  (Hb : number_bounds s = Some (lo, hi))
  (Hh : handleNumber v s isInteger = Some v')
  (Hx : lo <= x <= hi) :
  exists t, return_type v' = ty_name t /\ adaptor v' = ty_adaptor t
    /\ ((t <> UInt64 \/ 0 <= x) -> NumberAdaptor t (Some (NInt x)) = Some x)
    /\ (t = UInt64 -> x < 0 -> NumberAdaptor t (Some (NInt x)) = Some (x + 2 ^ 64)).
Proof.
  unfold handleNumber in Hh. rewrite Hint, Hb in Hh. cbn [negb] in Hh.
  inversion Hh as [Hv]; subst v'; clear Hh.
  destruct (number_bounds_range _ _ _ Hb) as [Hlo Hhi].
  assert (H64 : fits lo hi Int64 = true).
  { unfold fits. cbn [ty_min ty_max as_common].
    rewrite (proj2 (Z.leb_le _ _) Hlo), (proj2 (Z.leb_le _ _) Hhi). reflexivity. }
  destruct (fold_try_type_selects lo hi v [UInt64; Int32; UInt32; Int16; UInt16; Int8; UInt8]
              (try_type lo hi v Int64)) as [t [Hf Ht]].
  { exists Int64. split; [exact H64|]. unfold try_type. unfold fits in H64.
    rewrite H64. reflexivity. }
  cbn [fold_left] in Ht. rewrite Ht. exists t. split; [reflexivity|]. split; [reflexivity|].
  unfold fits in Hf. apply andb_prop in Hf. destruct Hf as [H1 H2].
  apply Z.leb_le in H1. apply Z.leb_le in H2.
  unfold INT64_MIN, INT64_MAX in Hlo, Hhi.
  split.
  - intros Hc. apply number_adaptor_in_range.
    destruct t; cbn [as_common ty_min ty_max] in *;
      unfold INT64_MIN, INT64_MAX, UINT64_MAX; try lia.
    destruct Hc as [Hc|Hc]; [congruence|]. simpl. lia.
  - intros -> Hneg. unfold NumberAdaptor. cbn [ucl_object_toint]. f_equal.
    unfold int_cast. cbn [ty_signed ty_width].
    rewrite <- (Z.mod_add x 1 (2 ^ 64)) by lia.
    rewrite Z.mod_small; [ring | simpl in *; lia].
Qed.

Definition bounded_int_schema : option node :=
  Some (NObj [("type", NStr "integer"); ("minimum", NInt (-5)); ("maximum", NInt 90)]).

Lemma selected_adaptor_reads_bounded_values_witness :
  exists t, return_type (set_result "int8_t" "Int8Adaptor" (new_visitor "x")) = ty_name t
    /\ adaptor (set_result "int8_t" "Int8Adaptor" (new_visitor "x")) = ty_adaptor t
    /\ ((t <> UInt64 \/ 0 <= -5) -> NumberAdaptor t (Some (NInt (-5))) = Some (-5))
    /\ (t = UInt64 -> -5 < 0 -> NumberAdaptor t (Some (NInt (-5))) = Some (-5 + 2 ^ 64)).
Proof.
  apply (selected_adaptor_reads_bounded_values (new_visitor "x") bounded_int_schema true
           (set_result "int8_t" "Int8Adaptor" (new_visitor "x")) (-5) 90 (-5));
    [reflexivity | vm_compute; reflexivity | vm_compute; reflexivity | lia].
Defined.

(** *** Dispatch on ["type"] *)

(** The handler [NamedTypeAdaptor::visit] selects for a schema and the
    [SchemaBase::type()] tag of that schema agree: the visitor handles a
    schema as kind [K] exactly when [type()] returns the enumerator of [K]. *)
Theorem dispatch_agrees_with_schema_type (s : option node) (K : SchemaKind) :
  visit_impl TypeAdaptor (type_key s) = Some K <-> schema_type s = Some (kind_tag K).
Proof.
  unfold type_key, schema_type, StringViewAdaptor.
  destruct (ucl_object_tostring (ucl_object_lookup s "type")) as [k|].
  - unfold TypeAdaptor, TypeEnumMap. cbn [visit_impl EnumValueMap_lookup].
    repeat match goal with
           | |- context [String.eqb k ?l] => destruct (String.eqb k l)
           end;
      destruct K; cbv; split; intros H; congruence.
  - destruct K; cbv; split; intros H; discriminate H.
Qed.

(** *** The generated text is only ever appended to *)

(** A visitor run that appends to the [types] stream a text that does not
    depend on what the stream held before. *)
Definition appends (f : VisitFn) : Prop :=
  forall s v, exists r : option (SchemaVisitor * string), forall t,
    f s v t = match r with Some (v', d) => Some (v', t ++ d) | None => None end.

Lemma fold_properties_appends (f : VisitFn) (req : list string)
  (props : list (option string * option node)) :
  appends f ->
  exists r : option (string * string), forall ty me,
    fold_properties f req props (ty, me)
    = match r with Some (a, b) => Some (ty ++ a, me ++ b) | None => None end.
Proof.
  intros Hf. induction props as [|[k p] props IH].
  - exists (Some ("", "")). intros ty me. cbn [fold_properties].
    rewrite !string_app_nil_r. reflexivity.
  - destruct IH as [r IH]. destruct k as [k|].
    2:{ exists None. intros ty me. reflexivity. }
    destruct (Hf p (new_visitor (method_name_of k))) as [r1 H1].
    destruct r1 as [[v1 d1]|].
    2:{ exists None. intros ty me. cbn [fold_properties]. unfold emit_property.
        rewrite H1. reflexivity. }
    destruct r as [[a b]|].
    + exists (Some (d1 ++ a,
                    description_text p
                    ++ method_text (existsb (String.eqb k) req) (method_name_of k) k v1
                    ++ nl ++ nl ++ b)).
      intros ty me. cbn [fold_properties]. unfold emit_property. rewrite H1.
      cbv beta iota. rewrite IH. rewrite !string_app_assoc. reflexivity.
    + exists None. intros ty me. cbn [fold_properties]. unfold emit_property.
      rewrite H1. cbv beta iota. rewrite IH. reflexivity.
Qed.

Lemma emit_class_gen_appends (f : VisitFn) (o : option node) (nm : string) :
  appends f ->
  exists r : option string, forall out,
    emit_class_gen f o nm out = match r with Some d => Some (out ++ d) | None => None end.
Proof.
  intros Hf. destruct (fold_properties_appends f (required_properties o) (properties o) Hf)
    as [r H].
  unfold emit_class_gen. destruct r as [[a b]|].
  - exists (Some (class_header nm ++ a ++ b ++ "};" ++ nl)). intros out.
    rewrite H. reflexivity.
  - exists None. intros out. rewrite H. reflexivity.
Qed.

Lemma visit_appends (fuel : nat) : appends (visit fuel).
Proof.
  induction fuel as [|fuel IH]; intros s v;
    destruct (visit_impl TypeAdaptor (type_key s)) as [K|] eqn:Hk;
    try (exists (Some (v, "")); intros t; cbn [visit]; rewrite Hk;
         rewrite string_app_nil_r; reflexivity);
    destruct K;
    try (exists None; intros t; cbn [visit]; rewrite Hk; reflexivity);
    try (exists (Some (mkSchemaVisitor (className v) "std::string_view" "StringViewAdaptor"
                         (adaptorNamespace v) "CONFIG_LIFETIME_BOUND" (name v), ""));
         intros t; cbn [visit]; rewrite Hk; rewrite string_app_nil_r; reflexivity);
    try (exists (Some (set_result "bool" "BoolAdaptor" v, "")); intros t; cbn [visit];
         rewrite Hk; rewrite string_app_nil_r; reflexivity);
    try (destruct (handleNumber v s true) as [v'|] eqn:Hn;
         [exists (Some (v', "")) | exists None]; intros t; cbn [visit]; rewrite Hk, Hn;
         try rewrite string_app_nil_r; reflexivity);
    try (destruct (handleNumber v s false) as [v'|] eqn:Hn;
         [exists (Some (v', "")) | exists None]; intros t; cbn [visit]; rewrite Hk, Hn;
         try rewrite string_app_nil_r; reflexivity).
  - destruct (emit_class_gen_appends (visit fuel) s (name v ++ "Class") IH) as [r H].
    destruct r as [d|].
    + exists (Some (mkSchemaVisitor (name v ++ "Class") (name v ++ "Class") (name v ++ "Class")
                      "" (lifetimeAttribute v) (name v), d)).
      intros t. cbn [visit]. rewrite Hk, H. reflexivity.
    + exists None. intros t. cbn [visit]. rewrite Hk, H. reflexivity.
  - destruct (IH (items s) (new_visitor (name v ++ "Item"))) as [r H].
    destruct r as [[item d]|].
    + exists (Some (mkSchemaVisitor
                      (configNamespace ++ "::Range<" ++ return_type item ++ ", "
                       ++ adaptor item ++ ", true>")
                      (configNamespace ++ "::Range<" ++ return_type item ++ ", "
                       ++ adaptor item ++ ", true>")
                      (configNamespace ++ "::Range<" ++ return_type item ++ ", "
                       ++ adaptor item ++ ", true>")
                      "" (lifetimeAttribute v) (name v), d)).
      intros t. cbn [visit]. rewrite Hk, H. reflexivity.
    + exists None. intros t. cbn [visit]. rewrite Hk, H. reflexivity.
Qed.

(** [emit_class] and the visitor only append to the text they are given: the
    result is the earlier text followed by a text that does not depend on it,
    and whether the run succeeds does not depend on it either. *)
Theorem generator_only_appends (o : option node) (nm out : string)
  (fuel : nat) (s : option node) (v : SchemaVisitor) (types : string) :
  emit_class o nm out
    = match emit_class o nm "" with Some d => Some (out ++ d) | None => None end
  /\ visit fuel s v types
    = match visit fuel s v "" with Some (v', d) => Some (v', types ++ d) | None => None end.
Proof.
  split.
  - unfold emit_class.
    destruct (emit_class_gen_appends
                (visit (match o with Some n => node_size n | None => O end)) o nm
                (visit_appends _)) as [r H].
    rewrite !H. destruct r; reflexivity.
  - destruct (visit_appends fuel s v) as [r H]. rewrite !H.
    destruct r as [[v' d]|]; reflexivity.
Qed.

(** *** Edge cases of the schema shapes *)

(** An array schema whose ["items"] is missing or has no recognised ["type"]
    yields the accessor type [Range<, , true>] with empty template arguments,
    and emits no nested types. *)
Theorem array_without_items_type (f : nat) (s : option node) (v : SchemaVisitor)
  (types : string)
  (Hk : visit_impl TypeAdaptor (type_key s) = Some KArray)
  (Hi : visit_impl TypeAdaptor (type_key (items s)) = None) :
  visit (S f) s v types
  = Some (mkSchemaVisitor (configNamespace ++ "::Range<, , true>")
            (configNamespace ++ "::Range<, , true>")
            (configNamespace ++ "::Range<, , true>")
            "" (lifetimeAttribute v) (name v), types).
Proof.
  cbn [visit]. rewrite Hk. rewrite (visit_no_handler f (items s) _ types Hi).
  reflexivity.
Qed.

Definition bare_array_schema : option node := Some (NObj [("type", NStr "array")]).

Lemma array_without_items_type_witness :
  visit 1 bare_array_schema (new_visitor "xs") ""
  = Some (mkSchemaVisitor (configNamespace ++ "::Range<, , true>")
            (configNamespace ++ "::Range<, , true>")
            (configNamespace ++ "::Range<, , true>")
            "" "" "xs", "").
Proof.
  apply (array_without_items_type O bare_array_schema (new_visitor "xs") "");
    reflexivity.
Defined.

(** [emit_class] on an object with no ["properties"] emits a class with no
    accessors; when ["properties"] is a nonempty array, its elements carry no
    key and [emit_class] is undefined. *)
Theorem emit_class_properties_edge_cases (o : option node) (nm out : string) :
  (ucl_object_lookup o "properties" = None
   -> emit_class o nm out = Some (out ++ class_header nm ++ "};" ++ nl))
  /\ (forall x l, ucl_object_lookup o "properties" = Some (NArr (x :: l))
      -> emit_class o nm out = None).
Proof.
  unfold emit_class, emit_class_gen, properties. split.
  - intros H. rewrite H. reflexivity.
  - intros x l H. rewrite H. reflexivity.
Qed.

(** The names [emit_class] treats as required: none without a ["required"]
    key, the string view of each element of a ["required"] array, and the
    one name when ["required"] is a single string. *)
Theorem required_properties_forms (s : option node) :
  (ucl_object_lookup s "required" = None -> required_properties s = [])
  /\ (forall l, ucl_object_lookup s "required" = Some (NArr l)
      -> required_properties s = map (fun x => StringViewAdaptor (Some x)) l)
  /\ (forall k, ucl_object_lookup s "required" = Some (NStr k)
      -> required_properties s = [k]).
Proof.
  unfold required_properties, required, make_optional. split; [|split].
  - intros H. rewrite H. reflexivity.
  - intros l H. rewrite H. rewrite Range_elements_array. reflexivity.
  - intros k H. rewrite H. rewrite Range_elements_scalar by reflexivity. reflexivity.
Qed.

(** *** [UCLPtr] keeps libucl reference counts balanced *)

Section UCLPtrCounts.

Local Open Scope nat_scope.

(** The documents the parser builds are trees: [par c] is the one object
    whose children include [c], each child is listed once, and [rank]
    decreases from an object to its children. *)
Variable kids : nat -> list nat.
Variable rank : nat -> nat.
Variable par : nat -> option nat.
Hypothesis Hkids : forall a c, In c (kids a) <-> par c = Some a.
Hypothesis Hnodup : forall a, NoDup (kids a).
Hypothesis Hrank : forall a c, In c (kids a) -> rank c < rank a.





























End UCLPtrCounts.











(** *** [replace] and [DoubleAdaptor] *)

(** The [replace] lambda of [main], searching for one character, replaces
    every occurrence of that character in a single left-to-right pass and
    never rescans the text it inserts, even when that text contains the
    character again. *)
Theorem replace_each_occurrence_once (c : ascii) (repl s : list ascii) :
  replace [c] repl s = flat_map (fun x => if Ascii.eqb c x then repl else [x]) s.
Proof. exact (replace_single c repl s). Qed.

(** [DoubleAdaptor] reads a document integer exactly when its magnitude is at
    most 2^53; an odd integer of larger magnitude is never read exactly. *)
Theorem double_adaptor_integer_exactness (z : Z) :
  (Z.abs z <= 2 ^ 53 -> DoubleAdaptor (Some (NInt z)) = inject_Z z)
  /\ (2 ^ 53 < Z.abs z -> Z.odd z = true -> ~ (DoubleAdaptor (Some (NInt z)) == inject_Z z)%Q).
Proof.
  unfold DoubleAdaptor, ucl_object_todouble, Z_to_double. split.
  - intros H. apply Z.leb_le in H. rewrite H. reflexivity.
  - intros H Hodd Heq. apply (proj1 (inject_Z_injective _ _)) in Heq. cbv zeta in Heq.
    assert (Hf : (Z.abs z <=? 2 ^ 53) = false) by (apply Z.leb_gt; exact H).
    rewrite Hf in Heq.
    assert (He : 1 <= Z.log2 (Z.abs z) - 52).
    { assert (Hl : Z.log2 (2 ^ 53) <= Z.log2 (Z.abs z)) by (apply Z.log2_le_mono; lia).
      rewrite Z.log2_pow2 in Hl by lia. lia. }
    revert Heq.
    set (e := Z.log2 (Z.abs z) - 52).
    set (q' := if 2 ^ (e - 1) <? Z.abs z mod 2 ^ e then Z.abs z / 2 ^ e + 1
               else if Z.abs z mod 2 ^ e =? 2 ^ (e - 1)
                    then if Z.odd (Z.abs z / 2 ^ e) then Z.abs z / 2 ^ e + 1
                         else Z.abs z / 2 ^ e
                    else Z.abs z / 2 ^ e).
    intros Heq.
    assert (Hp : 2 ^ e = 2 * 2 ^ (e - 1)).
    { rewrite <- Z.pow_succ_r by lia. f_equal. lia. }
    rewrite Hp in Heq.
    replace (Z.sgn z * (q' * (2 * 2 ^ (e - 1)))) with (2 * (Z.sgn z * q' * 2 ^ (e - 1)))
      in Heq by ring.
    rewrite <- Heq, Z.odd_mul in Hodd. discriminate Hodd.
Qed.
